(** * SpaceBitmap: the mark bitmap of runtime/gc/accounting/space_bitmap.h

    A shallow embedding of [art::gc::accounting::SpaceBitmap<kAlignment>].
    Machine integers are [Z] with the wrap-around of their C++ type written
    out; the backing words are a [list Z]; a failed [CHECK] is the [Fatal]
    outcome of a small result monad. *)

From Stdlib Require Import String ZArith List Sorted Lia Bool.
Import ListNotations.
Local Open Scope Z_scope.

(** ** Outcomes of fallible operations *)

Inductive result (A : Type) : Type :=
| Ok (a : A)      (* normal return *)
| Fatal           (* a CHECK failed, or memory outside the store was touched *)
| OutOfFuel.      (* the loop was cut by the model's fuel, not by the program *)

Arguments Ok {A} a.
Arguments Fatal {A}.
Arguments OutOfFuel {A}.

Definition bind {A B : Type} (r : result A) (k : A -> result B) : result B :=
  match r with
  | Ok a => k a
  | Fatal => Fatal
  | OutOfFuel => OutOfFuel
  end.

Notation "x <- r ;; k" := (bind r (fun x => k))
  (at level 61, r at next level, right associativity).

(** ** Fixed-width unsigned integers *)

(** [static_cast] to an unsigned type of [bits] bits. *)
Definition wrap (bits x : Z) : Z := x mod 2 ^ bits.

Definition uint64_t (x : Z) : Z := wrap 64 x.

(** ** The object *)

(** Modelled from the spec: [MemMap] (base/mem_map.h is not among the
    sources), the owned "virtual memory region": its base and byte size, or
    nothing for a region that was never reserved. *)
Definition MemMap : Type := option (Z * Z).

(** The data members, in declaration order.  [bitmap_begin_] is a pointer:
    an address, with [nullptr] = 0.  [words_] is not a member: it is the
    content of the memory [bitmap_begin_] points to, one [uintptr_t] per
    element. *)
Record SpaceBitmap : Type := mkSpaceBitmap {
  mem_map_ : MemMap;
  bitmap_begin_ : Z;
  bitmap_size_ : Z;
  heap_begin_ : Z;
  heap_limit_ : Z;
  name_ : string;
  words_ : list Z
}.

Definition nullptr : Z := 0.

(** [SpaceBitmap() = default], with the default member initializers. *)
Definition SpaceBitmap_default : SpaceBitmap :=
  {| mem_map_ := None;
     bitmap_begin_ := nullptr;
     bitmap_size_ := 0;
     heap_begin_ := 0;
     heap_limit_ := 0;
     name_ := EmptyString;
     words_ := [] |}.

Definition IsValid (bm : SpaceBitmap) : bool :=
  negb (bitmap_begin_ bm =? nullptr).

Definition Size (bm : SpaceBitmap) : Z := bitmap_size_ bm.

Definition HeapBegin (bm : SpaceBitmap) : Z := heap_begin_ bm.

Definition HeapLimit (bm : SpaceBitmap) : Z := uint64_t (heap_limit_ bm).

Definition set_heap_limit_ (bm : SpaceBitmap) (v : Z) : SpaceBitmap :=
  {| mem_map_ := mem_map_ bm; bitmap_begin_ := bitmap_begin_ bm;
     bitmap_size_ := bitmap_size_ bm; heap_begin_ := heap_begin_ bm;
     heap_limit_ := v; name_ := name_ bm; words_ := words_ bm |}.

Definition set_bitmap_size_ (bm : SpaceBitmap) (v : Z) : SpaceBitmap :=
  {| mem_map_ := mem_map_ bm; bitmap_begin_ := bitmap_begin_ bm;
     bitmap_size_ := v; heap_begin_ := heap_begin_ bm;
     heap_limit_ := heap_limit_ bm; name_ := name_ bm; words_ := words_ bm |}.

Definition set_words_ (bm : SpaceBitmap) (v : list Z) : SpaceBitmap :=
  {| mem_map_ := mem_map_ bm; bitmap_begin_ := bitmap_begin_ bm;
     bitmap_size_ := bitmap_size_ bm; heap_begin_ := heap_begin_ bm;
     heap_limit_ := heap_limit_ bm; name_ := name_ bm; words_ := v |}.

(** ** Two bitmaps to compute with

    For alignment 8 and 64-bit words, where a bitmap word covers 512 heap
    bytes. *)

(** A heap of 520 bytes at 4096: two words, the second for one slot and for
    63 slots of slack.  Slots 0 and 2 of the first word and slots 0 and 1
    of the second are marked. *)
Definition example_bitmap : SpaceBitmap :=
  {| mem_map_ := Some (65536, 16);
     bitmap_begin_ := 65536;
     bitmap_size_ := 16;
     heap_begin_ := 4096;
     heap_limit_ := 4616;
     name_ := "example";
     words_ := [5; 3] |}.


(** ** The class template *)

Section SpaceBitmapTemplate.

(** The template parameter, and the word size of the target.  [kBitsPerByte]
    and [kBitsPerIntPtrT] come from headers that are not among the sources;
    they are the usual [CHAR_BIT] and [sizeof(intptr_t) * kBitsPerByte]. *)
Variable kAlignment : Z.
Variable sizeof_intptr_t : Z.

Definition kBitsPerByte : Z := 8.
Definition kBitsPerIntPtrT : Z := sizeof_intptr_t * kBitsPerByte.

(** [uintptr_t] and [size_t] have the width of a pointer. *)
Definition uintptr_t (x : Z) : Z := wrap kBitsPerIntPtrT x.
Definition size_t (x : Z) : Z := wrap kBitsPerIntPtrT x.

(** *** Addressing arithmetic *)

(** The parameter of [OffsetToIndex] is a [size_t] and that of
    [OffsetBitIndex] and [OffsetToMask] a [uintptr_t]: the definitions are
    the functions on the values of these types, the offsets with
    [0 <= offset < 2 ^ kBitsPerIntPtrT], where no operation leaves the
    type.  An argument of a wider type is converted at the call; a caller
    with such an argument writes the conversion, [size_t _] or
    [uintptr_t _]. *)
Definition OffsetToIndex (offset : Z) : Z :=
  offset / kAlignment / kBitsPerIntPtrT.

(** [IndexToOffset<T>]: the product is taken in the wider of [T] and
    [size_t] and cast to [T]; for an unsigned [T] of [T_bits] bits that is
    the product modulo [2 ^ T_bits]. *)
Definition IndexToOffset (T_bits : Z) (index : Z) : Z :=
  wrap T_bits (index * kAlignment * kBitsPerIntPtrT).

Definition OffsetBitIndex (offset : Z) : Z :=
  (offset / kAlignment) mod kBitsPerIntPtrT.

Definition OffsetToMask (offset : Z) : Z :=
  size_t (Z.shiftl 1 (OffsetBitIndex offset)).

(** *** Range queries *)

Definition HasAddress (bm : SpaceBitmap) (obj : Z) : bool :=
  let offset := uintptr_t (obj - heap_begin_ bm) in
  let index := OffsetToIndex offset in
  index <? bitmap_size_ bm / sizeof_intptr_t.

Definition HeapSize (bm : SpaceBitmap) : Z :=
  IndexToOffset 64 (Size bm / sizeof_intptr_t).

(** [CHECK_EQ] aborts the process: the outcome is [Fatal]. *)
Definition SetHeapSize (bm : SpaceBitmap) (bytes : Z) : result SpaceBitmap :=
  let bm1 := set_heap_limit_ bm (uintptr_t (heap_begin_ bm + bytes)) in
  let bm2 := set_bitmap_size_ bm1 (size_t (OffsetToIndex bytes * sizeof_intptr_t)) in
  if HeapSize bm2 =? uint64_t bytes then Ok bm2 else Fatal.

(** [CopyView] leaves [mem_map_] alone: a view owns nothing. *)
Definition CopyView (this other : SpaceBitmap) : SpaceBitmap :=
  {| mem_map_ := mem_map_ this;
     bitmap_begin_ := bitmap_begin_ other;
     bitmap_size_ := bitmap_size_ other;
     heap_begin_ := heap_begin_ other;
     heap_limit_ := heap_limit_ other;
     name_ := name_ other;
     words_ := words_ other |}.

(** *** VisitRange

    [for (; visit_begin < visit_end; visit_begin += kAlignment) visitor(...)].
    The visitor is a state transformer.  The model follows the loop for at
    most [fuel] iterations and answers the state it reached, with whether
    the loop was left. *)

Section Visitor.
Context {St : Type}.
Variable visitor : Z -> St -> St.

Fixpoint VisitRange (fuel : nat) (visit_begin visit_end : Z) (s : St)
  : St * bool :=
  if visit_begin <? visit_end
  then match fuel with
       | O => (s, false)
       | S fuel' =>
           VisitRange fuel' (uintptr_t (visit_begin + kAlignment)) visit_end
             (visitor visit_begin s)
       end
  else (s, true).

End Visitor.

(** *** The backing store *)

(** [bitmap_begin_[index]]: a read outside the store has no meaning. *)
Definition load_word (bm : SpaceBitmap) (index : Z) : result Z :=
  if index <? 0 then Fatal
  else match nth_error (words_ bm) (Z.to_nat index) with
       | Some w => Ok w
       | None => Fatal
       end.

Fixpoint update_nth (n : nat) (x : Z) (l : list Z) {struct l} : list Z :=
  match l, n with
  | [], _ => []
  | _ :: t, O => x :: t
  | h :: t, S n' => h :: update_nth n' x t
  end.

(** [bitmap_begin_[index] = w]. *)
Definition store_word (bm : SpaceBitmap) (index w : Z) : SpaceBitmap :=
  set_words_ bm (update_nth (Z.to_nat index) w (words_ bm)).

(** [~x] on a [uintptr_t]. *)
Definition not_word (x : Z) : Z := uintptr_t (Z.lnot x).

(** Modelled from the spec: [ComputeBitmapSize] is declared in the header
    and defined elsewhere.  "covering ceil(capacity / alignment / wordBits)
    * wordSize bytes". *)
Definition ComputeBitmapSize (capacity : Z) : Z :=
  let kBytesCoveredPerWord := kAlignment * kBitsPerIntPtrT in
  (capacity + kBytesCoveredPerWord - 1) / kBytesCoveredPerWord
  * sizeof_intptr_t.

(** Modelled from the spec: [Test] is declared in the header and defined
    elsewhere.  "plain atomic load of the word, masked; precondition
    HasAddress(a) holds"; a violated precondition is fatal. *)
Definition Test (bm : SpaceBitmap) (obj : Z) : result bool :=
  if HasAddress bm obj then
    let offset := uintptr_t (obj - heap_begin_ bm) in
    let index := OffsetToIndex offset in
    let mask := OffsetToMask offset in
    w <- load_word bm index ;;
    Ok (negb (Z.land w mask =? 0))
  else Fatal.

(** Modelled from the spec: [Modify<kSetBit>] is declared in the header and
    defined elsewhere.  "read-modify-write the target word using an atomic
    OR/AND-NOT, returning the bit's prior value", as one thread sees it. *)
Definition Modify (kSetBit : bool) (bm : SpaceBitmap) (obj : Z)
  : result (bool * SpaceBitmap) :=
  if HasAddress bm obj then
    let offset := uintptr_t (obj - heap_begin_ bm) in
    let index := OffsetToIndex offset in
    let mask := OffsetToMask offset in
    old_word <- load_word bm index ;;
    let new_word := if kSetBit then Z.lor old_word mask
                    else Z.land old_word (not_word mask) in
    Ok (negb (Z.land old_word mask =? 0), store_word bm index new_word)
  else Fatal.

Definition Set_ (bm : SpaceBitmap) (obj : Z) : result (bool * SpaceBitmap) :=
  Modify true bm obj.

Definition Clear (bm : SpaceBitmap) (obj : Z) : result (bool * SpaceBitmap) :=
  Modify false bm obj.

(** *** Word scans *)

Fixpoint ctz_pos (p : positive) : Z :=
  match p with
  | xO q => Z.succ (ctz_pos q)
  | _ => 0
  end.

(** Modelled from the spec: the "count-trailing-zero style bit-extraction"
    primitive.  It has no meaning at 0, where the scans never call it. *)
Definition CTZ (x : Z) : Z :=
  match x with
  | Zpos p => ctz_pos p
  | _ => 0
  end.

(** Address of the slot of bit 0 of word [index]. *)
Definition WordBase (bm : SpaceBitmap) (index : Z) : Z :=
  uintptr_t (IndexToOffset kBitsPerIntPtrT index + heap_begin_ bm).

(** Number of the first slot whose offset is at or above [offset]. *)
Definition SlotCeil (offset : Z) : Z :=
  offset / kAlignment + (if offset mod kAlignment =? 0 then 0 else 1).

Section WordScan.
Context {St : Type}.
Variable visitor : Z -> St -> St.

(** Modelled from the spec: the extraction loop of the scans,
    [do { shift = CTZ(w); visitor(ptr_base + shift * kAlignment);
          w ^= 1 << shift; } while (w != 0)],
    leaving at once after the first hit in the visit-once mode.  The flag
    of the answer tells whether the scan is over. *)
Fixpoint VisitWordBits (kVisitOnce : bool) (fuel : nat) (ptr_base w : Z)
  (s : St) : result (St * bool) :=
  match fuel with
  | O => OutOfFuel
  | S fuel' =>
      let shift := CTZ w in
      let s' := visitor (uintptr_t (ptr_base + shift * kAlignment)) s in
      if kVisitOnce then Ok (s', true)
      else
        let w' := Z.lxor w (uintptr_t (Z.shiftl 1 shift)) in
        if w' =? 0 then Ok (s', false)
        else VisitWordBits kVisitOnce fuel' ptr_base w' s'
  end.

(** A word holds [kBitsPerIntPtrT] bits and every round clears one. *)
Definition VisitWord (kVisitOnce : bool) (ptr_base w : Z) (s : St)
  : result (St * bool) :=
  if w =? 0 then Ok (s, false)
  else VisitWordBits kVisitOnce (Z.to_nat kBitsPerIntPtrT) ptr_base w s.

(** Words [i], [i + 1], ... ([count] of them), the first and the last
    masked down to the bits of the range. *)
Fixpoint VisitWords (kVisitOnce : bool) (bm : SpaceBitmap)
  (index_start bit_start index_end bit_end : Z) (count : nat) (i : Z) (s : St)
  : result St :=
  match count with
  | O => Ok s
  | S count' =>
      w <- load_word bm i ;;
      let w1 := if i =? index_start
                then Z.land w (not_word (Z.shiftl 1 bit_start - 1)) else w in
      let w2 := if i =? index_end
                then Z.land w1 (Z.shiftl 1 bit_end - 1) else w1 in
      r <- VisitWord kVisitOnce (WordBase bm i) w2 s ;;
      if snd r then Ok (fst r)
      else VisitWords kVisitOnce bm index_start bit_start index_end bit_end
             count' (i + 1) (fst r)
  end.

(** Modelled from the spec: [VisitMarkedRange] is declared in the header and
    defined elsewhere.  "visits every set bit whose address lies in
    [begin, end), in ascending address order ... scan whole backing words at
    a time ... handle the first and last words specially by masking off bits
    outside [begin, end) before extraction.  A visitOnce mode stops after
    the first hit".  The bits of the range are those of the slots
    [SlotCeil offset_start] up to, and without, [SlotCeil offset_end]. *)
Definition VisitMarkedRange (kVisitOnce : bool) (bm : SpaceBitmap)
  (visit_begin visit_end : Z) (s : St) : result St :=
  let offset_start := uintptr_t (visit_begin - heap_begin_ bm) in
  let offset_end := uintptr_t (visit_end - heap_begin_ bm) in
  let slot_start := SlotCeil offset_start in
  let slot_end := SlotCeil offset_end in
  if slot_end <=? slot_start then Ok s
  else
    let index_start := slot_start / kBitsPerIntPtrT in
    let index_end := slot_end / kBitsPerIntPtrT in
    let bit_start := slot_start mod kBitsPerIntPtrT in
    let bit_end := slot_end mod kBitsPerIntPtrT in
    let index_last := (slot_end - 1) / kBitsPerIntPtrT in
    VisitWords kVisitOnce bm index_start bit_start index_end bit_end
      (Z.to_nat (index_last - index_start + 1)) index_start s.

End WordScan.

(** *** SweepWalk *)

Section Sweep.
(** Capacity of the pointer buffer, which the spec leaves open. *)
Variable buffer_size : Z.
Context {St : Type}.
(** The callback [thunk(ptr_count, ptrs, arg)]: the batch is the list
    [ptrs], of length [ptr_count]. *)
Variable thunk : list Z -> St -> St.




End Sweep.

(** *** Well-formed bitmaps *)

Definition is_address (a : Z) : Prop := 0 <= a < 2 ^ kBitsPerIntPtrT.

Definition aligned (a : Z) : Prop := a mod kAlignment = 0.

(** Values of a [uintptr_t]. *)
Definition word_range (w : Z) : Prop := 0 <= w < 2 ^ kBitsPerIntPtrT.

(** Heap bytes the backing store has bits for: whole words. *)
Definition CoveredBytes (bm : SpaceBitmap) : Z :=
  Size bm / sizeof_intptr_t * kAlignment * kBitsPerIntPtrT.

(** Modelled from the spec: what the constructors, which are defined
    elsewhere, establish.  The invariants of the data model: a store is
    attached ("backing store pointer is non-null"), the heap range is a
    range of addresses that starts on a slot ("bit 0 of word 0 corresponds
    to this address"), the store has the size computed for the capacity, and
    its words are words. *)
Record Valid (bm : SpaceBitmap) : Prop := mkValid {
  valid_store : bitmap_begin_ bm <> nullptr;
  valid_begin : 0 <= heap_begin_ bm /\ aligned (heap_begin_ bm);
  valid_limit : heap_begin_ bm <= heap_limit_ bm < 2 ^ kBitsPerIntPtrT;
  valid_size :
    bitmap_size_ bm = ComputeBitmapSize (heap_limit_ bm - heap_begin_ bm);
  valid_length :
    Z.of_nat (length (words_ bm)) = bitmap_size_ bm / sizeof_intptr_t;
  valid_words : Forall word_range (words_ bm)
}.

(** The covered range, slack of the last word included, lies in the address
    space. *)
Definition CoverageFits (bm : SpaceBitmap) : Prop :=
  heap_begin_ bm + CoveredBytes bm <= 2 ^ kBitsPerIntPtrT.

(** Addresses [b], [b + kAlignment], ...: [n] of them. *)
Fixpoint SlotsFrom (b : Z) (n : nat) : list Z :=
  match n with
  | O => []
  | S n' => b :: SlotsFrom (b + kAlignment) n'
  end.

(** Number of slots [b], [b + kAlignment], ... below [e]. *)
Definition SlotCount (b e : Z) : nat :=
  Z.to_nat ((e - b + kAlignment - 1) / kAlignment).

Definition RangeSlots (b e : Z) : list Z := SlotsFrom b (SlotCount b e).

(** Calls of a visitor, one after the other. *)
Definition visit_all {St : Type} (visitor : Z -> St -> St) (l : list Z)
  (s : St) : St :=
  fold_left (fun s a => visitor a s) l s.


(** A visitor that records its arguments, latest last. *)
Definition record_call (a : Z) (log : list Z) : list Z := log ++ [a].


(** Bit [j] of word [i] of the store. *)
Definition bit_at (bm : SpaceBitmap) (i : nat) (j : Z) : bool :=
  Z.testbit (nth i (words_ bm) 0) j.

(** [bm'] is [bm] but for the bit of address [a]: the members are the same,
    every other bit of every word is the same, and so is [Test] at every
    other slot address. *)
Definition SameButBitOf (a : Z) (bm bm' : SpaceBitmap) : Prop :=
  mem_map_ bm' = mem_map_ bm
  /\ bitmap_begin_ bm' = bitmap_begin_ bm
  /\ bitmap_size_ bm' = bitmap_size_ bm
  /\ heap_begin_ bm' = heap_begin_ bm
  /\ heap_limit_ bm' = heap_limit_ bm
  /\ name_ bm' = name_ bm
  /\ length (words_ bm') = length (words_ bm)
  /\ (forall i j,
        i <> Z.to_nat (OffsetToIndex (uintptr_t (a - heap_begin_ bm)))
        \/ j <> OffsetBitIndex (uintptr_t (a - heap_begin_ bm)) ->
        bit_at bm' i j = bit_at bm i j)
  /\ (forall a', is_address a' -> heap_begin_ bm <= a' -> aligned a' ->
        a' <> a -> Test bm' a' = Test bm a').

(** The word [Modify<kSetBit>] writes back. *)
Definition modified_word (kSetBit : bool) (old_word mask : Z) : Z :=
  if kSetBit then Z.lor old_word mask else Z.land old_word (not_word mask).


(** Positions [lo], [lo + 1], ... ([count] of them) where [w] has a bit,
    in ascending order. *)
Fixpoint bits_between (w lo : Z) (count : nat) : list Z :=
  match count with
  | O => []
  | S count' =>
      (if Z.testbit w lo then [lo] else []) ++ bits_between w (lo + 1) count'
  end.

Definition set_bits (w : Z) : list Z :=
  bits_between w 0 (Z.to_nat kBitsPerIntPtrT).

(** Word [i] of the store. *)
Definition word_at (bm : SpaceBitmap) (i : Z) : Z :=
  nth (Z.to_nat i) (words_ bm) 0.

(** Slot addresses of the bits of [word_of i], [word_of (i + 1)], ...
    ([count] words), as integers. *)
Fixpoint slots_of_words (word_of : Z -> Z) (heap_begin : Z) (count : nat)
  (i : Z) : list Z :=
  match count with
  | O => []
  | S count' =>
      map (fun j => heap_begin + (i * kBitsPerIntPtrT + j) * kAlignment)
        (set_bits (word_of i))
      ++ slots_of_words word_of heap_begin count' (i + 1)
  end.

(** The word that [VisitWords] scans at index [i]. *)
Definition range_word (bm : SpaceBitmap)
  (index_start bit_start index_end bit_end i : Z) : Z :=
  let w := word_at bm i in
  let w1 := if i =? index_start
            then Z.land w (not_word (Z.shiftl 1 bit_start - 1)) else w in
  if i =? index_end then Z.land w1 (Z.shiftl 1 bit_end - 1) else w1.




(** The addresses that [VisitMarkedRange] hands to the visitor, in the
    order of the calls. *)
Definition MarkedSlots (bm : SpaceBitmap) (visit_begin visit_end : Z)
  : list Z :=
  let slot_start := SlotCeil (uintptr_t (visit_begin - heap_begin_ bm)) in
  let slot_end := SlotCeil (uintptr_t (visit_end - heap_begin_ bm)) in
  if slot_end <=? slot_start then []
  else
    slots_of_words
      (range_word bm (slot_start / kBitsPerIntPtrT)
         (slot_start mod kBitsPerIntPtrT) (slot_end / kBitsPerIntPtrT)
         (slot_end mod kBitsPerIntPtrT))
      (heap_begin_ bm)
      (Z.to_nat ((slot_end - 1) / kBitsPerIntPtrT
                 - slot_start / kBitsPerIntPtrT + 1))
      (slot_start / kBitsPerIntPtrT).





(** [VisitAllMarked]: [VisitMarkedRange(HeapBegin(), HeapLimit(), visitor)].
    [HeapLimit()] is a [uint64_t] and the parameter a [uintptr_t]. *)
Definition VisitAllMarked {St : Type} (visitor : Z -> St -> St)
  (bm : SpaceBitmap) (s : St) : result St :=
  VisitMarkedRange visitor false bm (HeapBegin bm) (uintptr_t (HeapLimit bm)) s.


(** ** Properties *)

Hypothesis kAlignment_pos : 0 < kAlignment.
Hypothesis sizeof_intptr_t_pos : 0 < sizeof_intptr_t.

Lemma kBitsPerIntPtrT_pos : 0 < kBitsPerIntPtrT.
Proof. unfold kBitsPerIntPtrT, kBitsPerByte. lia. Qed.

Lemma word_modulus_pos : 0 < 2 ^ kBitsPerIntPtrT.
Proof. apply Z.pow_pos_nonneg; [lia | pose proof kBitsPerIntPtrT_pos; lia]. Qed.

Lemma bytes_per_word_pos : 0 < kAlignment * kBitsPerIntPtrT.
Proof. pose proof kBitsPerIntPtrT_pos. nia. Qed.

Lemma wrap_small bits x : 0 <= x < 2 ^ bits -> wrap bits x = x.
Proof. intros H. unfold wrap. apply Z.mod_small. exact H. Qed.

Lemma wrap_le bits x : 0 <= bits -> 0 <= x -> 0 <= wrap bits x <= x.
Proof.
  intros Hb Hx. unfold wrap.
  assert (0 < 2 ^ bits) by (apply Z.pow_pos_nonneg; lia).
  split; [apply Z.mod_pos_bound; lia | apply Z.mod_le; lia].
Qed.

Lemma uintptr_t_small x : is_address x -> uintptr_t x = x.
Proof. intros H. apply wrap_small. exact H. Qed.

Lemma uintptr_t_range x : is_address (uintptr_t x).
Proof.
  unfold is_address, uintptr_t, wrap. apply Z.mod_pos_bound.
  apply word_modulus_pos.
Qed.

Lemma OffsetToIndex_div offset :
  OffsetToIndex offset = offset / (kAlignment * kBitsPerIntPtrT).
Proof.
  unfold OffsetToIndex. pose proof kBitsPerIntPtrT_pos.
  apply Zdiv_Zdiv; lia.
Qed.

Lemma OffsetToIndex_nonneg offset : 0 <= offset -> 0 <= OffsetToIndex offset.
Proof.
  intros H. rewrite OffsetToIndex_div. apply Z.div_pos; [lia |].
  apply bytes_per_word_pos.
Qed.

(** The word of an offset is below [n] exactly when the offset is below the
    first offset of word [n]. *)
Lemma OffsetToIndex_lt_iff offset n :
  OffsetToIndex offset < n <-> offset < n * kAlignment * kBitsPerIntPtrT.
Proof.
  rewrite OffsetToIndex_div. pose proof bytes_per_word_pos as Hm.
  rewrite <- Z.mul_assoc.
  split; intros H.
  - apply Z.nle_gt. intros Hle. apply Z.nle_gt in H. apply H.
    apply Z.div_le_lower_bound; [lia |]. lia.
  - apply Z.div_lt_upper_bound; [lia |]. lia.
Qed.

Lemma IndexToOffset_small T_bits index :
  0 <= index -> index * kAlignment * kBitsPerIntPtrT < 2 ^ T_bits ->
  IndexToOffset T_bits index = index * kAlignment * kBitsPerIntPtrT.
Proof.
  intros Hi Hlt. unfold IndexToOffset. apply wrap_small.
  pose proof bytes_per_word_pos. split; [nia | exact Hlt].
Qed.

Lemma OffsetToIndex_word index r :
  0 <= r < kAlignment * kBitsPerIntPtrT ->
  OffsetToIndex (index * kAlignment * kBitsPerIntPtrT + r) = index.
Proof.
  intros Hr. rewrite OffsetToIndex_div. rewrite <- Z.mul_assoc.
  rewrite Z.add_comm. rewrite Z.div_add by lia.
  rewrite Z.div_small by lia. lia.
Qed.

Lemma OffsetToIndex_floor offset :
  0 <= offset ->
  OffsetToIndex offset * kAlignment * kBitsPerIntPtrT <= offset
  /\ offset < (OffsetToIndex offset + 1) * kAlignment * kBitsPerIntPtrT.
Proof.
  intros Hoff. rewrite OffsetToIndex_div. pose proof bytes_per_word_pos as Hm.
  pose proof (Z.mul_div_le offset _ Hm).
  pose proof (Z.mul_succ_div_gt offset _ Hm). lia.
Qed.

(** *** IsValid and the default constructor *)

(** C9: [IsValid()] is true exactly when the backing-store pointer is not
    null, and a default-constructed bitmap has a null backing-store pointer,
    sizes and bounds 0, and is not valid. *)
Theorem IsValid_iff_store_attached :
  (forall bm, IsValid bm = true <-> bitmap_begin_ bm <> nullptr)
  /\ bitmap_begin_ SpaceBitmap_default = nullptr
  /\ bitmap_size_ SpaceBitmap_default = 0
  /\ Size SpaceBitmap_default = 0
  /\ heap_begin_ SpaceBitmap_default = 0
  /\ heap_limit_ SpaceBitmap_default = 0
  /\ HeapBegin SpaceBitmap_default = 0
  /\ HeapLimit SpaceBitmap_default = 0
  /\ IsValid SpaceBitmap_default = false.
Proof.
  split; [| repeat split; reflexivity].
  intros bm. unfold IsValid. rewrite negb_true_iff. apply Z.eqb_neq.
Qed.

(** *** Index and offset *)

(** C6, as amended: [OffsetToIndex (IndexToOffset i) = i] for every word
    index [i] whose offset overflows neither [T], the result type of
    [IndexToOffset], nor [size_t], the type of the parameter of
    [OffsetToIndex], to which the argument is converted at the call; for
    every offset [off], a value of [size_t],
    [IndexToOffset (OffsetToIndex off) <= off], and
    [off < IndexToOffset (OffsetToIndex off + 1)] when the offset of the next
    word does not overflow [T]. *)
Theorem IndexToOffset_OffsetToIndex_inverse (T_bits : Z) :
  0 <= T_bits ->
  (forall i, 0 <= i -> i * kAlignment * kBitsPerIntPtrT < 2 ^ T_bits ->
     i * kAlignment * kBitsPerIntPtrT < 2 ^ kBitsPerIntPtrT ->
     size_t (IndexToOffset T_bits i) = IndexToOffset T_bits i
     /\ OffsetToIndex (size_t (IndexToOffset T_bits i)) = i)
  /\ (forall off, is_address off ->
        IndexToOffset T_bits (OffsetToIndex off) <= off
        /\ ((OffsetToIndex off + 1) * kAlignment * kBitsPerIntPtrT < 2 ^ T_bits ->
            off < IndexToOffset T_bits (OffsetToIndex off + 1))).
Proof.
  intros HT. split.
  - intros i Hi Hlt Hfit. rewrite IndexToOffset_small by assumption.
    pose proof bytes_per_word_pos as Hm.
    assert (Hs : size_t (i * kAlignment * kBitsPerIntPtrT)
                 = i * kAlignment * kBitsPerIntPtrT).
    { apply wrap_small. split; [nia | exact Hfit]. }
    rewrite Hs. split; [reflexivity |].
    replace (i * kAlignment * kBitsPerIntPtrT)
      with (i * kAlignment * kBitsPerIntPtrT + 0) by lia.
    apply OffsetToIndex_word. lia.
  - intros off [Hoff _].
    destruct (OffsetToIndex_floor off Hoff) as [Hlo Hhi].
    pose proof (OffsetToIndex_nonneg off Hoff) as Hq.
    pose proof bytes_per_word_pos as Hm.
    split.
    + unfold IndexToOffset.
      assert (0 <= OffsetToIndex off * kAlignment * kBitsPerIntPtrT) by nia.
      pose proof (wrap_le T_bits _ HT H). lia.
    + intros Hnext. rewrite IndexToOffset_small; [exact Hhi | lia | exact Hnext].
Qed.

(** *** HeapSize and SetHeapSize *)

Lemma SetHeapSize_HeapSize bm bytes :
  sizeof_intptr_t <= 8 -> is_address bytes ->
  HeapSize
    (set_bitmap_size_
       (set_heap_limit_ bm (uintptr_t (heap_begin_ bm + bytes)))
       (size_t (OffsetToIndex bytes * sizeof_intptr_t)))
  = OffsetToIndex bytes * kAlignment * kBitsPerIntPtrT.
Proof.
  intros Hsz [Hb0 Hb1].
  pose proof (OffsetToIndex_nonneg bytes Hb0) as Hq.
  destruct (OffsetToIndex_floor bytes Hb0) as [Hlo _].
  pose proof bytes_per_word_pos as Hm. pose proof kBitsPerIntPtrT_pos as HB.
  assert (Hqs : 0 <= OffsetToIndex bytes * sizeof_intptr_t <= bytes).
  { unfold kBitsPerIntPtrT, kBitsPerByte in *. nia. }
  unfold HeapSize, Size, size_t. cbn [bitmap_size_ set_bitmap_size_].
  rewrite wrap_small by lia.
  rewrite Z.div_mul by lia.
  apply IndexToOffset_small; [exact Hq |].
  assert (2 ^ kBitsPerIntPtrT <= 2 ^ 64).
  { apply Z.pow_le_mono_r; [lia |]. unfold kBitsPerIntPtrT, kBitsPerByte. lia. }
  lia.
Qed.

Lemma word_round_trip_iff bytes :
  0 <= bytes ->
  OffsetToIndex bytes * kAlignment * kBitsPerIntPtrT = bytes
  <-> bytes mod (kAlignment * kBitsPerIntPtrT) = 0.
Proof.
  intros Hb. rewrite OffsetToIndex_div. pose proof bytes_per_word_pos as Hm.
  rewrite (Z.mod_eq bytes (kAlignment * kBitsPerIntPtrT)) by lia.
  rewrite <- Z.mul_assoc. lia.
Qed.

(** C7: [SetHeapSize(bytes)] aborts exactly when [bytes] is not a multiple
    of [kAlignment * kBitsPerIntPtrT], that is when [HeapSize()] computed from
    the new bitmap size is not [bytes]; when it returns, [HeapSize() = bytes]
    and [HeapLimit() = HeapBegin() + bytes], in pointer arithmetic and, where
    that sum is an address, as integers. *)
Theorem SetHeapSize_aborts_iff_not_whole_words bm bytes :
  sizeof_intptr_t <= 8 -> is_address (heap_begin_ bm) -> is_address bytes ->
  (SetHeapSize bm bytes = Fatal
   <-> IndexToOffset 64 (OffsetToIndex bytes) <> bytes)
  /\ (SetHeapSize bm bytes = Fatal
      <-> bytes mod (kAlignment * kBitsPerIntPtrT) <> 0)
  /\ (bytes mod (kAlignment * kBitsPerIntPtrT) = 0 ->
      exists bm', SetHeapSize bm bytes = Ok bm'
        /\ HeapSize bm' = bytes
        /\ HeapBegin bm' = HeapBegin bm
        /\ HeapLimit bm' = uintptr_t (HeapBegin bm' + bytes)
        /\ (HeapBegin bm + bytes < 2 ^ kBitsPerIntPtrT ->
            HeapLimit bm' = HeapBegin bm' + bytes)).
Proof.
  intros Hsz Hhb Hbytes.
  assert (Hw : 2 ^ kBitsPerIntPtrT <= 2 ^ 64).
  { apply Z.pow_le_mono_r; [lia |]. unfold kBitsPerIntPtrT, kBitsPerByte. lia. }
  assert (Hu : uint64_t bytes = bytes).
  { apply wrap_small. unfold is_address in Hbytes. lia. }
  assert (Hix : IndexToOffset 64 (OffsetToIndex bytes)
                = OffsetToIndex bytes * kAlignment * kBitsPerIntPtrT).
  { apply IndexToOffset_small.
    - apply OffsetToIndex_nonneg. apply Hbytes.
    - pose proof (OffsetToIndex_floor bytes (proj1 Hbytes)).
      unfold is_address in Hbytes. lia. }
  rewrite Hix.
  unfold SetHeapSize. rewrite SetHeapSize_HeapSize by assumption. rewrite Hu.
  pose proof (word_round_trip_iff bytes (proj1 Hbytes)) as Hrt.
  destruct (Z.eqb_spec (OffsetToIndex bytes * kAlignment * kBitsPerIntPtrT) bytes)
    as [Heq | Hne].
  - split; [split; [discriminate | intros Hn; exfalso; apply Hn; exact Heq] |].
    split.
    + split; [discriminate | intros Hn; exfalso; apply Hn; apply Hrt; exact Heq].
    + intros _. eexists. split; [reflexivity |].
      split; [rewrite SetHeapSize_HeapSize by assumption; exact Heq |].
      split; [reflexivity |].
      unfold HeapLimit, HeapBegin. cbn [heap_limit_ heap_begin_ set_bitmap_size_ set_heap_limit_].
      assert (Hl : uint64_t (uintptr_t (heap_begin_ bm + bytes))
                   = uintptr_t (heap_begin_ bm + bytes)).
      { apply wrap_small. pose proof (uintptr_t_range (heap_begin_ bm + bytes)) as Hr.
        unfold is_address in Hr. lia. }
      split; [exact Hl |].
      intros Hfit. rewrite Hl. apply uintptr_t_small.
      unfold is_address in *. lia.
  - split; [split; [intros _; exact Hne | reflexivity] |].
    split.
    + split; [intros _ Hm; apply Hne; apply Hrt; exact Hm | reflexivity].
    + intros Hm. exfalso. apply Hne. apply Hrt. exact Hm.
Qed.

(** *** HasAddress *)

Lemma uintptr_t_underflow x :
  - 2 ^ kBitsPerIntPtrT <= x < 0 -> uintptr_t x = x + 2 ^ kBitsPerIntPtrT.
Proof.
  intros Hx. unfold uintptr_t, wrap.
  rewrite <- (Z_mod_plus_full x 1 (2 ^ kBitsPerIntPtrT)).
  rewrite Z.mul_1_l. apply Z.mod_small. lia.
Qed.

Lemma HasAddress_spec bm a :
  HasAddress bm a = true
  <-> uintptr_t (a - heap_begin_ bm) < CoveredBytes bm.
Proof.
  unfold HasAddress, CoveredBytes, Size. rewrite Z.ltb_lt.
  apply OffsetToIndex_lt_iff.
Qed.

(** The store computed for a capacity has a bit for each of its slots. *)
Lemma ComputeBitmapSize_covers capacity :
  capacity
  <= ComputeBitmapSize capacity / sizeof_intptr_t
     * kAlignment * kBitsPerIntPtrT.
Proof.
  unfold ComputeBitmapSize. pose proof bytes_per_word_pos as Hm.
  rewrite Z.div_mul by lia. rewrite <- Z.mul_assoc.
  pose proof (Z.mul_succ_div_gt
                (capacity + kAlignment * kBitsPerIntPtrT - 1) _ Hm).
  lia.
Qed.

Lemma Valid_covers bm :
  Valid bm -> heap_limit_ bm <= heap_begin_ bm + CoveredBytes bm.
Proof.
  intros V. unfold CoveredBytes, Size. rewrite (valid_size bm V).
  pose proof (ComputeBitmapSize_covers (heap_limit_ bm - heap_begin_ bm)).
  lia.
Qed.

Lemma HasAddress_in_coverage bm a :
  is_address (heap_begin_ bm) -> is_address a -> CoverageFits bm ->
  HasAddress bm a = true
  <-> heap_begin_ bm <= a < heap_begin_ bm + CoveredBytes bm.
Proof.
  intros [Hhb0 Hhb1] [Ha0 Ha1] Hfit. rewrite HasAddress_spec.
  unfold CoverageFits in Hfit.
  destruct (Z_lt_le_dec a (heap_begin_ bm)) as [Hlt | Hge].
  - rewrite uintptr_t_underflow by lia. lia.
  - rewrite uintptr_t_small by (unfold is_address; lia). lia.
Qed.

(** C1, as amended: on a valid bitmap whose covered range lies in the
    address space, [HasAddress(a)] is true if and only if
    [heapBegin <= a < heapBegin + (Size() / wordSize) * alignment * wordBits];
    so it is true for every address in [heapBegin, heapLimit), false for
    every address below [heapBegin] (the offset underflows to an index past
    the store) and false for every address at or above the end of the last
    word's coverage, which is at or above [heapLimit]. *)
Theorem HasAddress_iff_in_covered_words bm a :
  Valid bm -> CoverageFits bm -> is_address a ->
  (HasAddress bm a = true
   <-> heap_begin_ bm <= a < heap_begin_ bm + CoveredBytes bm)
  /\ heap_limit_ bm <= heap_begin_ bm + CoveredBytes bm
  /\ (heap_begin_ bm <= a < heap_limit_ bm -> HasAddress bm a = true)
  /\ (a < heap_begin_ bm -> HasAddress bm a = false)
  /\ (heap_begin_ bm + CoveredBytes bm <= a -> HasAddress bm a = false).
Proof.
  intros V Hfit Ha.
  pose proof (Valid_covers bm V) as Hcov.
  assert (Hhb : is_address (heap_begin_ bm)).
  { pose proof (valid_begin bm V). pose proof (valid_limit bm V).
    unfold is_address. lia. }
  pose proof (HasAddress_in_coverage bm a Hhb Ha Hfit) as Hiff.
  split; [exact Hiff |]. split; [exact Hcov |].
  split; [intros Hin; apply Hiff; lia |].
  split; intros Hout; apply not_true_is_false; intros Ht; apply Hiff in Ht; lia.
Qed.

(** C10: [HasAddress] does not read [heap_limit_]; on every valid bitmap
    whose capacity is not a multiple of [kAlignment * kBitsPerIntPtrT] it is
    true for every address [a] with
    [heapLimit <= a < heapBegin + (Size() / wordSize) * alignment * wordBits],
    and [heapLimit] is such an address. *)
Theorem HasAddress_true_in_rounding_slack bm :
  Valid bm ->
  (heap_limit_ bm - heap_begin_ bm) mod (kAlignment * kBitsPerIntPtrT) <> 0 ->
  (forall limit a, HasAddress (set_heap_limit_ bm limit) a = HasAddress bm a)
  /\ (forall a, is_address a ->
        heap_limit_ bm <= a
          < heap_begin_ bm
            + Size bm / sizeof_intptr_t * kAlignment * kBitsPerIntPtrT ->
        HasAddress bm a = true)
  /\ heap_limit_ bm
       < heap_begin_ bm
         + Size bm / sizeof_intptr_t * kAlignment * kBitsPerIntPtrT
  /\ HasAddress bm (heap_limit_ bm) = true.
Proof.
  intros V Hslack.
  pose proof (Valid_covers bm V) as Hcov. unfold CoveredBytes in Hcov.
  destruct (valid_limit bm V) as [Hl0 Hl1].
  destruct (valid_begin bm V) as [Hb0 _].
  assert (Hin : forall a, is_address a ->
            heap_limit_ bm <= a
              < heap_begin_ bm
                + Size bm / sizeof_intptr_t * kAlignment * kBitsPerIntPtrT ->
            HasAddress bm a = true).
  { intros a [Ha0 Ha1] Hr. apply HasAddress_spec. unfold CoveredBytes.
    rewrite uintptr_t_small by (unfold is_address; lia). lia. }
  assert (Hlt : heap_limit_ bm
                < heap_begin_ bm
                  + Size bm / sizeof_intptr_t * kAlignment * kBitsPerIntPtrT).
  { destruct (Z_lt_le_dec (heap_limit_ bm)
                (heap_begin_ bm
                 + Size bm / sizeof_intptr_t * kAlignment * kBitsPerIntPtrT))
      as [Hlt | Hge]; [exact Hlt |].
    exfalso. apply Hslack.
    replace (heap_limit_ bm - heap_begin_ bm)
      with (Size bm / sizeof_intptr_t * (kAlignment * kBitsPerIntPtrT)) by lia.
    apply Z_mod_mult. }
  split; [reflexivity |]. split; [exact Hin |]. split; [exact Hlt |].
  apply Hin; [unfold is_address; lia | lia].
Qed.

(** *** VisitRange *)

Lemma VisitRange_SlotsFrom {St : Type} (visitor : Z -> St -> St)
  (visit_end : Z) (n : nat) :
  forall (fuel : nat) (b : Z) (s : St),
    (n <= fuel)%nat -> 0 <= b ->
    (forall k, 0 <= k < Z.of_nat n ->
       b + k * kAlignment < visit_end
       /\ b + (k + 1) * kAlignment < 2 ^ kBitsPerIntPtrT) ->
    visit_end <= b + Z.of_nat n * kAlignment ->
    VisitRange visitor fuel b visit_end s
    = (visit_all visitor (SlotsFrom b n) s, true).
Proof.
  induction n as [| n IH]; intros fuel b s Hfuel Hb Hk Hend.
  - assert (Hge : (b <? visit_end) = false) by (apply Z.ltb_ge; lia).
    destruct fuel; simpl; rewrite Hge; reflexivity.
  - destruct fuel as [| fuel]; [lia |].
    destruct (Hk 0 ltac:(lia)) as [Hlt Hnw].
    simpl. replace (b <? visit_end) with true by (symmetry; apply Z.ltb_lt; lia).
    rewrite uintptr_t_small by (unfold is_address; lia).
    unfold visit_all in *. simpl.
    apply IH; [lia | lia | | lia].
    intros k Hkr. destruct (Hk (k + 1) ltac:(lia)) as [H1 H2].
    split; lia.
Qed.

Lemma SlotsFrom_In b n x :
  In x (SlotsFrom b n)
  <-> exists k, 0 <= k < Z.of_nat n /\ x = b + k * kAlignment.
Proof.
  revert b. induction n as [| n IH]; intros b.
  - simpl. split; [tauto | intros [k [Hk _]]; lia].
  - cbn [SlotsFrom In]. rewrite IH. split.
    + intros [Hx | [k [Hk Hx]]].
      * exists 0. split; lia.
      * exists (k + 1). split; lia.
    + intros [k [Hk Hx]]. destruct (Z.eq_dec k 0) as [-> | Hne].
      * left. lia.
      * right. exists (k - 1). split; lia.
Qed.

Lemma SlotsFrom_sorted b n : StronglySorted Z.lt (SlotsFrom b n).
Proof.
  revert b. induction n as [| n IH]; intros b; simpl; constructor.
  - apply IH.
  - apply Forall_forall. intros x Hx. apply SlotsFrom_In in Hx.
    destruct Hx as [k [Hk ->]]. nia.
Qed.

Lemma SlotCount_spec b e :
  let n := Z.of_nat (SlotCount b e) in
  e <= b + n * kAlignment
  /\ (forall k, 0 <= k -> (k < n <-> b + k * kAlignment < e)).
Proof.
  unfold SlotCount.
  set (q := (e - b + kAlignment - 1) / kAlignment).
  pose proof (Z.mul_div_le (e - b + kAlignment - 1) _ kAlignment_pos) as Hlo.
  pose proof (Z.mul_succ_div_gt (e - b + kAlignment - 1) _ kAlignment_pos) as Hhi.
  fold q in Hlo, Hhi. cbv zeta.
  destruct (Z_lt_le_dec q 0) as [Hneg | Hpos].
  - assert (Hz : Z.of_nat (Z.to_nat q) = 0) by lia. rewrite Hz.
    split; [nia |]. intros k Hk. split; [lia | nia].
  - rewrite Z2Nat.id by lia.
    split; [nia |]. intros k Hk. split; intros H; nia.
Qed.

(** C8, as amended: when the cursor does not wrap around the address space
    before it reaches [end] (the successor of every visited address is an
    address), [VisitRange(begin, end, visitor)] returns after calling the
    visitor, whatever the bits, on exactly the addresses [begin],
    [begin + kAlignment], [begin + 2 * kAlignment], ... strictly below
    [end], in ascending order.  From an aligned [begin] these are exactly
    the aligned addresses of [begin, end); from a [begin] that is not
    aligned none of them is aligned. *)
Theorem VisitRange_visits_every_slot {St : Type} (visitor : Z -> St -> St)
  (visit_begin visit_end : Z) (s : St) :
  is_address visit_begin ->
  (forall k, 0 <= k -> visit_begin + k * kAlignment < visit_end ->
     visit_begin + (k + 1) * kAlignment < 2 ^ kBitsPerIntPtrT) ->
  (forall fuel, (SlotCount visit_begin visit_end <= fuel)%nat ->
     VisitRange visitor fuel visit_begin visit_end s
     = (visit_all visitor (RangeSlots visit_begin visit_end) s, true))
  /\ StronglySorted Z.lt (RangeSlots visit_begin visit_end)
  /\ (forall x, In x (RangeSlots visit_begin visit_end)
        <-> exists k, 0 <= k /\ x = visit_begin + k * kAlignment
                      /\ x < visit_end)
  /\ (aligned visit_begin ->
      forall x, In x (RangeSlots visit_begin visit_end)
        <-> visit_begin <= x < visit_end /\ aligned x)
  /\ (~ aligned visit_begin ->
      forall x, In x (RangeSlots visit_begin visit_end) -> ~ aligned x).
Proof.
  intros [Hb0 Hb1] Hnowrap.
  destruct (SlotCount_spec visit_begin visit_end) as [Hend Hcount].
  assert (Hmem : forall x, In x (RangeSlots visit_begin visit_end)
            <-> exists k, 0 <= k /\ x = visit_begin + k * kAlignment
                          /\ x < visit_end).
  { intros x. unfold RangeSlots. rewrite SlotsFrom_In. split.
    - intros [k [[Hk0 Hk1] ->]]. exists k.
      split; [exact Hk0 |]. split; [reflexivity |]. apply Hcount; assumption.
    - intros [k [Hk0 [-> Hlt]]]. exists k.
      split; [| reflexivity]. split; [exact Hk0 |]. apply Hcount; assumption. }
  assert (Hphase : forall x, In x (RangeSlots visit_begin visit_end) ->
            x mod kAlignment = visit_begin mod kAlignment).
  { intros x Hx. apply Hmem in Hx. destruct Hx as [k [_ [-> _]]].
    apply Z_mod_plus_full. }
  split; [| split; [| split; [| split]]].
  - intros fuel Hfuel. unfold RangeSlots.
    apply VisitRange_SlotsFrom; [exact Hfuel | exact Hb0 | | exact Hend].
    intros k [Hk0 Hk1]. apply Hcount in Hk1; [| exact Hk0].
    split; [exact Hk1 | apply Hnowrap; assumption].
  - apply SlotsFrom_sorted.
  - exact Hmem.
  - intros Hal x. split.
    + intros Hx. pose proof (Hphase x Hx) as Hp. apply Hmem in Hx.
      destruct Hx as [k [Hk0 [Hx Hlt]]].
      split; [nia |]. unfold aligned in *. rewrite Hp. exact Hal.
    + intros [[Hlo Hhi] Hax]. apply Hmem. unfold aligned in *.
      pose proof (Z.div_mod (x - visit_begin) kAlignment ltac:(lia)) as E.
      assert (Hr : (x - visit_begin) mod kAlignment = 0).
      { rewrite Zminus_mod, Hax, Hal. reflexivity. }
      rewrite Hr in E. exists ((x - visit_begin) / kAlignment).
      split; [| split; [lia | exact Hhi]].
      apply Z.div_pos; lia.
  - intros Hna x Hx Hax. apply Hna. unfold aligned in *.
    rewrite <- (Hphase x Hx). exact Hax.
Qed.

(** *** Bits of a word *)

Lemma testbit_above_word w j :
  word_range w -> kBitsPerIntPtrT <= j -> Z.testbit w j = false.
Proof.
  intros Hw Hj. pose proof kBitsPerIntPtrT_pos.
  rewrite <- (Z.mod_small w (2 ^ kBitsPerIntPtrT)) by exact Hw.
  apply Z.mod_pow2_bits_high. lia.
Qed.

Lemma word_range_of_bits w :
  0 <= w -> (forall j, kBitsPerIntPtrT <= j -> Z.testbit w j = false) ->
  word_range w.
Proof.
  intros Hw Hbits. pose proof kBitsPerIntPtrT_pos as HB.
  assert (Heq : w mod 2 ^ kBitsPerIntPtrT = w).
  { apply Z.bits_inj'. intros j Hj.
    destruct (Z_lt_le_dec j kBitsPerIntPtrT) as [Hlt | Hge].
    - apply Z.mod_pow2_bits_low. exact Hlt.
    - rewrite Z.mod_pow2_bits_high by lia. symmetry. apply Hbits. exact Hge. }
  unfold word_range. rewrite <- Heq. apply Z.mod_pos_bound.
  apply word_modulus_pos.
Qed.

Lemma pow2_word_range b :
  0 <= b < kBitsPerIntPtrT -> word_range (2 ^ b).
Proof.
  intros Hb. split; [apply Z.pow_nonneg; lia |].
  apply Z.pow_lt_mono_r; lia.
Qed.

Lemma testbit_not_word x j :
  0 <= j < kBitsPerIntPtrT ->
  Z.testbit (not_word x) j = negb (Z.testbit x j).
Proof.
  intros Hj. unfold not_word, uintptr_t, wrap.
  rewrite Z.mod_pow2_bits_low by lia. apply Z.lnot_spec. lia.
Qed.

Lemma not_word_range x : word_range (not_word x).
Proof. apply uintptr_t_range. Qed.

Lemma land_word_range x y : word_range x -> 0 <= y -> word_range (Z.land x y).
Proof.
  intros Hx Hy. apply word_range_of_bits.
  - apply Z.land_nonneg. left. apply Hx.
  - intros j Hj. rewrite Z.land_spec, (testbit_above_word x j Hx Hj).
    reflexivity.
Qed.

Lemma lor_word_range x y : word_range x -> word_range y -> word_range (Z.lor x y).
Proof.
  intros Hx Hy. apply word_range_of_bits.
  - apply Z.lor_nonneg. split; [apply Hx | apply Hy].
  - intros j Hj.
    rewrite Z.lor_spec, (testbit_above_word x j Hx Hj),
      (testbit_above_word y j Hy Hj). reflexivity.
Qed.

(** A word masked with one bit is not 0 exactly when it has the bit. *)
Lemma land_pow2_is_testbit w b :
  0 <= b -> negb (Z.land w (2 ^ b) =? 0) = Z.testbit w b.
Proof.
  intros Hb.
  assert (Hland : Z.land w (2 ^ b) = if Z.testbit w b then 2 ^ b else 0).
  { apply Z.bits_inj'. intros j Hj. rewrite Z.land_spec, Z.pow2_bits_eqb by lia.
    destruct (Z.eqb_spec b j) as [-> | Hne].
    - destruct (Z.testbit w j); [| rewrite Z.bits_0; reflexivity].
      rewrite Z.pow2_bits_eqb by lia. rewrite Z.eqb_refl. reflexivity.
    - rewrite andb_false_r.
      destruct (Z.testbit w b); [| rewrite Z.bits_0; reflexivity].
      rewrite Z.pow2_bits_eqb by lia. symmetry. apply Z.eqb_neq. exact Hne. }
  rewrite Hland. destruct (Z.testbit w b).
  - assert (0 < 2 ^ b) by (apply Z.pow_pos_nonneg; lia).
    destruct (Z.eqb_spec (2 ^ b) 0); [lia | reflexivity].
  - reflexivity.
Qed.

Lemma testbit_set_bit w b j :
  0 <= b -> Z.testbit (Z.lor w (2 ^ b)) j = Z.testbit w j || (b =? j).
Proof. intros Hb. rewrite Z.lor_spec, Z.pow2_bits_eqb by lia. reflexivity. Qed.

Lemma testbit_clear_bit w b j :
  word_range w -> 0 <= b < kBitsPerIntPtrT ->
  Z.testbit (Z.land w (not_word (2 ^ b))) j = Z.testbit w j && negb (b =? j).
Proof.
  intros Hw Hb. rewrite Z.land_spec.
  destruct (Z_lt_le_dec j 0) as [Hneg | Hj0].
  - rewrite (Z.testbit_neg_r w j Hneg). reflexivity.
  - destruct (Z_lt_le_dec j kBitsPerIntPtrT) as [Hlt | Hge].
    + rewrite testbit_not_word by lia. rewrite Z.pow2_bits_eqb by lia.
      reflexivity.
    + rewrite (testbit_above_word w j Hw Hge). reflexivity.
Qed.

(** *** The store *)

Lemma update_nth_length n x l : length (update_nth n x l) = length l.
Proof.
  revert n. induction l as [| h t IH]; intros n; [reflexivity |].
  destruct n; simpl; [reflexivity | rewrite IH; reflexivity].
Qed.

Lemma update_nth_same n x l :
  (n < length l)%nat -> nth_error (update_nth n x l) n = Some x.
Proof.
  revert n. induction l as [| h t IH]; intros n Hn; simpl in Hn; [lia |].
  destruct n; simpl; [reflexivity | apply IH; lia].
Qed.

Lemma update_nth_other n m x l :
  n <> m -> nth_error (update_nth n x l) m = nth_error l m.
Proof.
  revert n m. induction l as [| h t IH]; intros n m Hne; [reflexivity |].
  destruct n, m; simpl; try reflexivity; [congruence | apply IH; congruence].
Qed.

Lemma update_nth_Forall (P : Z -> Prop) n x l :
  P x -> Forall P l -> Forall P (update_nth n x l).
Proof.
  intros Hx. revert n. induction l as [| h t IH]; intros n Hl; [constructor |].
  inversion Hl; subst. destruct n; simpl; constructor; auto.
Qed.

Lemma load_word_Ok bm index :
  0 <= index < Z.of_nat (length (words_ bm)) ->
  exists w, nth_error (words_ bm) (Z.to_nat index) = Some w
            /\ load_word bm index = Ok w.
Proof.
  intros Hi. unfold load_word.
  replace (index <? 0) with false by (symmetry; apply Z.ltb_ge; lia).
  destruct (nth_error (words_ bm) (Z.to_nat index)) as [w |] eqn:Hnth.
  - exists w. split; reflexivity.
  - apply nth_error_None in Hnth. lia.
Qed.

Lemma Valid_word bm i w :
  Valid bm -> nth_error (words_ bm) i = Some w -> word_range w.
Proof.
  intros V Hnth. pose proof (valid_words bm V) as HF.
  rewrite Forall_forall in HF. apply HF. eapply nth_error_In. exact Hnth.
Qed.

(** *** Slots *)

Lemma OffsetBitIndex_range offset : 0 <= OffsetBitIndex offset < kBitsPerIntPtrT.
Proof. unfold OffsetBitIndex. apply Z.mod_pos_bound. apply kBitsPerIntPtrT_pos. Qed.

Lemma OffsetToMask_pow2 offset : OffsetToMask offset = 2 ^ OffsetBitIndex offset.
Proof.
  pose proof (OffsetBitIndex_range offset) as Hb.
  unfold OffsetToMask, size_t. rewrite Z.shiftl_1_l.
  apply wrap_small. apply pow2_word_range. exact Hb.
Qed.

(** The slot of an offset, split in its word and its bit. *)
Lemma slot_split offset :
  offset / kAlignment
  = OffsetToIndex offset * kBitsPerIntPtrT + OffsetBitIndex offset.
Proof.
  unfold OffsetToIndex, OffsetBitIndex. pose proof kBitsPerIntPtrT_pos.
  rewrite (Z.div_mod (offset / kAlignment) kBitsPerIntPtrT) at 1 by lia.
  lia.
Qed.

(** *** Test and Modify *)

Lemma offset_index_nonneg bm a :
  0 <= OffsetToIndex (uintptr_t (a - heap_begin_ bm)).
Proof. apply OffsetToIndex_nonneg. apply uintptr_t_range. Qed.

Lemma HasAddress_index bm a :
  Valid bm -> HasAddress bm a = true ->
  0 <= OffsetToIndex (uintptr_t (a - heap_begin_ bm))
    < Z.of_nat (length (words_ bm)).
Proof.
  intros V Hhas. split; [apply offset_index_nonneg |].
  rewrite (valid_length bm V). unfold HasAddress in Hhas.
  apply Z.ltb_lt. exact Hhas.
Qed.

Lemma in_heap_HasAddress bm a :
  Valid bm -> heap_begin_ bm <= a < heap_limit_ bm ->
  uintptr_t (a - heap_begin_ bm) = a - heap_begin_ bm
  /\ HasAddress bm a = true.
Proof.
  intros V Ha. pose proof (Valid_covers bm V) as Hcov.
  destruct (valid_limit bm V) as [_ Hl]. destruct (valid_begin bm V) as [Hb _].
  assert (Hoff : uintptr_t (a - heap_begin_ bm) = a - heap_begin_ bm).
  { apply uintptr_t_small. unfold is_address. lia. }
  split; [exact Hoff |]. apply HasAddress_spec. rewrite Hoff. lia.
Qed.

Lemma Test_spec bm a :
  Test bm a
  = if HasAddress bm a
    then match nth_error (words_ bm)
                 (Z.to_nat (OffsetToIndex (uintptr_t (a - heap_begin_ bm)))) with
         | Some w =>
             Ok (Z.testbit w (OffsetBitIndex (uintptr_t (a - heap_begin_ bm))))
         | None => Fatal
         end
    else Fatal.
Proof.
  unfold Test. destruct (HasAddress bm a); [| reflexivity].
  unfold load_word. pose proof (offset_index_nonneg bm a) as Hi.
  replace (OffsetToIndex (uintptr_t (a - heap_begin_ bm)) <? 0) with false
    by (symmetry; apply Z.ltb_ge; exact Hi).
  destruct (nth_error _ _) as [w |]; [| reflexivity].
  cbn [bind]. rewrite OffsetToMask_pow2.
  rewrite land_pow2_is_testbit by apply OffsetBitIndex_range. reflexivity.
Qed.

Lemma testbit_modified_word kSetBit w b j :
  word_range w -> 0 <= b < kBitsPerIntPtrT ->
  Z.testbit (modified_word kSetBit w (2 ^ b)) j
  = if b =? j then kSetBit else Z.testbit w j.
Proof.
  intros Hw Hb. unfold modified_word. destruct kSetBit.
  - rewrite testbit_set_bit by lia.
    destruct (b =? j); [apply orb_true_r | apply orb_false_r].
  - rewrite testbit_clear_bit by assumption.
    destruct (b =? j); [apply andb_false_r | apply andb_true_r].
Qed.

Lemma modified_word_range kSetBit w b :
  word_range w -> 0 <= b < kBitsPerIntPtrT ->
  word_range (modified_word kSetBit w (2 ^ b)).
Proof.
  intros Hw Hb. unfold modified_word. destruct kSetBit.
  - apply lor_word_range; [exact Hw | apply pow2_word_range; exact Hb].
  - apply land_word_range; [exact Hw | apply not_word_range].
Qed.

Lemma Modify_Ok kSetBit bm a :
  Valid bm -> HasAddress bm a = true ->
  exists w,
    nth_error (words_ bm)
      (Z.to_nat (OffsetToIndex (uintptr_t (a - heap_begin_ bm)))) = Some w
    /\ word_range w
    /\ Modify kSetBit bm a
       = Ok (Z.testbit w (OffsetBitIndex (uintptr_t (a - heap_begin_ bm))),
             store_word bm (OffsetToIndex (uintptr_t (a - heap_begin_ bm)))
               (modified_word kSetBit w
                  (2 ^ OffsetBitIndex (uintptr_t (a - heap_begin_ bm))))).
Proof.
  intros V Hhas.
  destruct (load_word_Ok bm _ (HasAddress_index bm a V Hhas)) as [w [Hnth Hload]].
  exists w. split; [exact Hnth |]. split; [eapply Valid_word; eassumption |].
  unfold Modify. rewrite Hhas, Hload. cbn [bind].
  rewrite OffsetToMask_pow2.
  rewrite land_pow2_is_testbit by apply OffsetBitIndex_range. reflexivity.
Qed.

Lemma store_word_Valid bm index w :
  Valid bm -> word_range w -> Valid (store_word bm index w).
Proof.
  intros V Hw. destruct V as [V1 V2 V3 V4 V5 V6].
  constructor; cbn [store_word set_words_ bitmap_begin_ heap_begin_ heap_limit_
                      bitmap_size_ words_]; try assumption.
  - rewrite update_nth_length. exact V5.
  - apply update_nth_Forall; assumption.
Qed.

Lemma nth_update_nth_other n m x l :
  n <> m -> nth m (update_nth n x l) 0 = nth m l 0.
Proof.
  revert n m. induction l as [| h t IH]; intros n m Hne; [reflexivity |].
  destruct n, m; simpl; try reflexivity; [congruence | apply IH; congruence].
Qed.

(** Aligned addresses at or above [heap_begin_] that share a slot are equal. *)
Lemma aligned_slot_inj bm a a' :
  Valid bm -> aligned a -> aligned a' ->
  heap_begin_ bm <= a -> heap_begin_ bm <= a' ->
  (a - heap_begin_ bm) / kAlignment = (a' - heap_begin_ bm) / kAlignment ->
  a = a'.
Proof.
  intros V Ha Ha' Hge Hge' Hslot.
  destruct (valid_begin bm V) as [_ Hb]. unfold aligned in *.
  assert (Hm : forall x, x mod kAlignment = 0 ->
                 (x - heap_begin_ bm) mod kAlignment = 0).
  { intros x Hx. rewrite Zminus_mod, Hx, Hb. reflexivity. }
  pose proof (Z.div_mod (a - heap_begin_ bm) kAlignment ltac:(lia)) as E.
  pose proof (Z.div_mod (a' - heap_begin_ bm) kAlignment ltac:(lia)) as E'.
  rewrite (Hm a Ha) in E. rewrite (Hm a' Ha') in E'. rewrite Hslot in E. lia.
Qed.

Lemma Modify_effect kSetBit bm a :
  Valid bm -> aligned a -> heap_begin_ bm <= a < heap_limit_ bm ->
  exists old bm',
    Modify kSetBit bm a = Ok (old, bm')
    /\ Test bm a = Ok old
    /\ Test bm' a = Ok kSetBit
    /\ Valid bm'
    /\ SameButBitOf a bm bm'.
Proof.
  intros V Hal Ha.
  destruct (in_heap_HasAddress bm a V Ha) as [Hoff Hhas].
  destruct (Modify_Ok kSetBit bm a V Hhas) as [w [Hnth [Hw Hmod]]].
  pose proof (HasAddress_index bm a V Hhas) as Hidx.
  pose proof (OffsetBitIndex_range (uintptr_t (a - heap_begin_ bm))) as Hbit.
  set (idx := OffsetToIndex (uintptr_t (a - heap_begin_ bm))) in *.
  set (bit := OffsetBitIndex (uintptr_t (a - heap_begin_ bm))) in *.
  set (w' := modified_word kSetBit w (2 ^ bit)) in *.
  assert (Hbits : forall j, Z.testbit w' j = if bit =? j then kSetBit else Z.testbit w j).
  { intros j. apply testbit_modified_word; assumption. }
  assert (Hnth' : nth_error (words_ (store_word bm idx w')) (Z.to_nat idx) = Some w').
  { cbn [store_word set_words_ words_]. apply update_nth_same. lia. }
  exists (Z.testbit w bit), (store_word bm idx w').
  split; [exact Hmod |].
  split.
  { rewrite Test_spec, Hhas. fold idx. rewrite Hnth. reflexivity. }
  split.
  { rewrite Test_spec. change (HasAddress (store_word bm idx w') a)
      with (HasAddress bm a). rewrite Hhas.
    change (heap_begin_ (store_word bm idx w')) with (heap_begin_ bm).
    fold idx bit. rewrite Hnth', Hbits, Z.eqb_refl. reflexivity. }
  split.
  { apply store_word_Valid; [exact V |].
    apply modified_word_range; assumption. }
  unfold SameButBitOf. fold idx bit.
  do 6 (split; [reflexivity |]).
  split; [apply update_nth_length |].
  split.
  - intros i j Hij. unfold bit_at.
    destruct (Nat.eq_dec (Z.to_nat idx) i) as [<- | Hi].
    + destruct Hij as [Hi | Hj]; [congruence |].
      rewrite (nth_error_nth _ _ 0 Hnth).
      rewrite (nth_error_nth _ _ 0 Hnth'). rewrite Hbits.
      destruct (Z.eqb_spec bit j); [congruence | reflexivity].
    + cbn [store_word set_words_ words_].
      rewrite nth_update_nth_other by exact Hi. reflexivity.
  - intros a' Haddr Hge' Hal' Hne.
    rewrite !Test_spec.
    change (HasAddress (store_word bm idx w') a') with (HasAddress bm a').
    change (heap_begin_ (store_word bm idx w')) with (heap_begin_ bm).
    destruct (HasAddress bm a') eqn:Hhas'; [| reflexivity].
    pose proof (HasAddress_index bm a' V Hhas') as Hidx'.
    assert (Hoff' : uintptr_t (a' - heap_begin_ bm) = a' - heap_begin_ bm).
    { apply uintptr_t_small. pose proof (proj1 (valid_begin bm V)).
      unfold is_address in *. lia. }
    set (idx' := OffsetToIndex (uintptr_t (a' - heap_begin_ bm))) in *.
    set (bit' := OffsetBitIndex (uintptr_t (a' - heap_begin_ bm))) in *.
    cbn [store_word set_words_ words_].
    destruct (Z.eq_dec idx idx') as [Heq | Hneq].
    + rewrite <- Heq. rewrite update_nth_same by lia. rewrite Hnth.
      rewrite Hbits. destruct (Z.eqb_spec bit bit') as [Hb | Hb]; [| reflexivity].
      exfalso. apply Hne. symmetry.
      apply (aligned_slot_inj bm a a' V Hal Hal' (proj1 Ha) Hge').
      rewrite <- Hoff, <- Hoff'.
      rewrite (slot_split (uintptr_t (a - heap_begin_ bm))).
      rewrite (slot_split (uintptr_t (a' - heap_begin_ bm))).
      fold idx idx' bit bit'. rewrite Heq, Hb. reflexivity.
    + rewrite update_nth_other; [reflexivity |].
      intros Hc. apply Hneq. apply Z2Nat.inj; lia.
Qed.

(** C4: for every aligned address [a] with [heapBegin <= a < heapLimit] of
    a valid bitmap, [HasAddress(a)] is true; [Set(a)] returns and [Test(a)]
    is true afterwards; [Clear(a)] returns and [Test(a)] is false
    afterwards; and either call leaves every other bit of the store, and
    the members, as they were. *)
Theorem Set_Clear_then_Test bm a :
  Valid bm -> aligned a -> heap_begin_ bm <= a < heap_limit_ bm ->
  HasAddress bm a = true
  /\ (exists old bm',
        Set_ bm a = Ok (old, bm')
        /\ Test bm' a = Ok true
        /\ SameButBitOf a bm bm')
  /\ (exists old bm',
        Clear bm a = Ok (old, bm')
        /\ Test bm' a = Ok false
        /\ SameButBitOf a bm bm').
Proof.
  intros V Hal Ha.
  split; [apply (in_heap_HasAddress bm a V Ha) |].
  split.
  - destruct (Modify_effect true bm a V Hal Ha)
      as [old [bm' [Hrun [_ [Htest [_ Hsame]]]]]].
    exists old, bm'. unfold Set_. auto.
  - destruct (Modify_effect false bm a V Hal Ha)
      as [old [bm' [Hrun [_ [Htest [_ Hsame]]]]]].
    exists old, bm'. unfold Clear. auto.
Qed.

(** C5: for every aligned address [a] in the heap range, [Set(a)] returns
    the value [Test(a)] had before the call; when that value is false a
    second [Set(a)] returns true. *)
Theorem Set_returns_previous_bit bm a :
  Valid bm -> aligned a -> heap_begin_ bm <= a < heap_limit_ bm ->
  exists old bm',
    Set_ bm a = Ok (old, bm')
    /\ Test bm a = Ok old
    /\ (old = false -> exists bm'', Set_ bm' a = Ok (true, bm'')).
Proof.
  intros V Hal Ha.
  destruct (Modify_effect true bm a V Hal Ha)
    as [old [bm' [Hrun [Hbefore [Hafter [V' Hsame]]]]]].
  exists old, bm'. split; [exact Hrun |]. split; [exact Hbefore |].
  intros _.
  destruct Hsame as [_ [_ [_ [Hb [Hl _]]]]].
  assert (Ha' : heap_begin_ bm' <= a < heap_limit_ bm') by (rewrite Hb, Hl; exact Ha).
  destruct (Modify_effect true bm' a V' Hal Ha')
    as [old2 [bm'' [Hrun2 [Hbefore2 _]]]].
  rewrite Hafter in Hbefore2. injection Hbefore2 as <-.
  exists bm''. exact Hrun2.
Qed.

(** *** Count of trailing zeros *)

Lemma ctz_pos_spec p :
  0 <= ctz_pos p
  /\ Z.testbit (Zpos p) (ctz_pos p) = true
  /\ forall j, 0 <= j < ctz_pos p -> Z.testbit (Zpos p) j = false.
Proof.
  induction p as [p IH | p IH |]; cbn [ctz_pos].
  - split; [lia |]. split; [reflexivity | intros; lia].
  - destruct IH as [H0 [H1 H2]]. split; [lia |].
    change (Zpos p~0) with (2 * Zpos p). split.
    + rewrite Z.double_bits_succ. exact H1.
    + intros j Hj. destruct (Z.eq_dec j 0) as [-> | Hne].
      * apply Z.testbit_even_0.
      * replace j with (Z.succ (j - 1)) by lia.
        rewrite Z.double_bits_succ. apply H2. lia.
  - split; [lia |]. split; [reflexivity | intros; lia].
Qed.

(** [CTZ] finds the lowest bit of a word that is not 0. *)
Lemma CTZ_spec w :
  0 < w ->
  0 <= CTZ w
  /\ Z.testbit w (CTZ w) = true
  /\ forall j, j < CTZ w -> Z.testbit w j = false.
Proof.
  intros Hw. destruct w as [| p | p]; try lia.
  destruct (ctz_pos_spec p) as [H0 [H1 H2]]. cbn [CTZ].
  split; [exact H0 |]. split; [exact H1 |].
  intros j Hj. destruct (Z_lt_le_dec j 0) as [Hneg | Hpos].
  - apply Z.testbit_neg_r. exact Hneg.
  - apply H2. lia.
Qed.

Lemma CTZ_range w lo :
  word_range w -> 0 < w -> (forall j, j < lo -> Z.testbit w j = false) ->
  lo <= CTZ w < kBitsPerIntPtrT.
Proof.
  intros Hr Hw Hlo. destruct (CTZ_spec w Hw) as [_ [Hbit _]]. split.
  - destruct (Z_lt_le_dec (CTZ w) lo) as [Hlt | Hge]; [| exact Hge].
    rewrite (Hlo _ Hlt) in Hbit. discriminate.
  - destruct (Z_lt_le_dec (CTZ w) kBitsPerIntPtrT) as [Hlt | Hge]; [exact Hlt |].
    rewrite (testbit_above_word w _ Hr Hge) in Hbit. discriminate.
Qed.

(** Clearing the lowest bit: [w ^ (1 << CTZ(w))]. *)
Lemma clear_lowest_bit w c :
  word_range w -> 0 <= c < kBitsPerIntPtrT ->
  word_range (Z.lxor w (uintptr_t (Z.shiftl 1 c)))
  /\ forall j, Z.testbit (Z.lxor w (uintptr_t (Z.shiftl 1 c))) j
               = xorb (Z.testbit w j) (c =? j).
Proof.
  intros Hw Hc.
  assert (Hm : uintptr_t (Z.shiftl 1 c) = 2 ^ c).
  { rewrite Z.shiftl_1_l. apply wrap_small. apply pow2_word_range. exact Hc. }
  rewrite Hm.
  assert (Hbits : forall j, Z.testbit (Z.lxor w (2 ^ c)) j
                            = xorb (Z.testbit w j) (c =? j)).
  { intros j. rewrite Z.lxor_spec, Z.pow2_bits_eqb by lia. reflexivity. }
  split; [| exact Hbits].
  apply word_range_of_bits.
  - apply Z.lxor_nonneg. split; intros _; [apply Z.pow_nonneg; lia | apply Hw].
  - intros j Hj. rewrite Hbits, (testbit_above_word w j Hw Hj).
    destruct (Z.eqb_spec c j); [lia | reflexivity].
Qed.

(** *** Bits of a word, in order *)

Lemma bits_between_In w lo n j :
  In j (bits_between w lo n)
  <-> lo <= j < lo + Z.of_nat n /\ Z.testbit w j = true.
Proof.
  revert lo. induction n as [| n IH]; intros lo.
  - simpl. split; [tauto | lia].
  - cbn [bits_between]. rewrite in_app_iff, IH. split.
    + intros [Hhd | [Hr Hb]]; [| split; [lia | exact Hb]].
      destruct (Z.testbit w lo) eqn:Hlo; [| contradiction].
      destruct Hhd as [<- | []]. split; [lia | exact Hlo].
    + intros [Hr Hb]. destruct (Z.eq_dec j lo) as [-> | Hne].
      * left. rewrite Hb. left. reflexivity.
      * right. split; [lia | exact Hb].
Qed.

Lemma StronglySorted_app (l1 l2 : list Z) :
  StronglySorted Z.lt l1 -> StronglySorted Z.lt l2 ->
  (forall x y, In x l1 -> In y l2 -> x < y) ->
  StronglySorted Z.lt (l1 ++ l2).
Proof.
  intros H1 H2 Hlt. induction l1 as [| h t IH]; [exact H2 |].
  inversion H1 as [| ? ? Ht Hh]; subst. simpl. constructor.
  - apply IH; [exact Ht |]. intros x y Hx Hy. apply Hlt; [right; exact Hx | exact Hy].
  - apply Forall_app. split; [exact Hh |].
    apply Forall_forall. intros y Hy. apply Hlt; [left; reflexivity | exact Hy].
Qed.


Lemma bits_between_sorted w lo n : StronglySorted Z.lt (bits_between w lo n).
Proof.
  revert lo. induction n as [| n IH]; intros lo; [constructor |].
  cbn [bits_between]. apply StronglySorted_app.
  - destruct (Z.testbit w lo); repeat constructor.
  - apply IH.
  - intros x y Hx Hy. apply bits_between_In in Hy.
    destruct (Z.testbit w lo); [| contradiction].
    destruct Hx as [<- | []]. lia.
Qed.

Lemma bits_between_ext w w' lo n :
  (forall j, lo <= j < lo + Z.of_nat n -> Z.testbit w j = Z.testbit w' j) ->
  bits_between w lo n = bits_between w' lo n.
Proof.
  revert lo. induction n as [| n IH]; intros lo Hext; [reflexivity |].
  cbn [bits_between]. rewrite (Hext lo) by lia. f_equal.
  apply IH. intros j Hj. apply Hext. lia.
Qed.

Lemma bits_between_none w lo n :
  (forall j, lo <= j < lo + Z.of_nat n -> Z.testbit w j = false) ->
  bits_between w lo n = [].
Proof.
  revert lo. induction n as [| n IH]; intros lo Hz; [reflexivity |].
  cbn [bits_between]. rewrite (Hz lo) by lia. simpl.
  apply IH. intros j Hj. apply Hz. lia.
Qed.

Lemma bits_between_app w lo n m :
  bits_between w lo (n + m)
  = bits_between w lo n ++ bits_between w (lo + Z.of_nat n) m.
Proof.
  revert lo. induction n as [| n IH]; intros lo.
  - simpl. rewrite Z.add_0_r. reflexivity.
  - cbn [Nat.add bits_between]. rewrite IH, <- app_assoc.
    replace (lo + 1 + Z.of_nat n) with (lo + Z.of_nat (S n)) by lia.
    reflexivity.
Qed.

(** The bits from [lo] on, when the lowest of them is [c]. *)
Lemma bits_between_lowest w w' lo c :
  lo <= c < kBitsPerIntPtrT ->
  (forall j, lo <= j < c -> Z.testbit w j = false) ->
  Z.testbit w c = true ->
  (forall j, c < j -> Z.testbit w' j = Z.testbit w j) ->
  bits_between w lo (Z.to_nat (kBitsPerIntPtrT - lo))
  = c :: bits_between w' (c + 1) (Z.to_nat (kBitsPerIntPtrT - (c + 1))).
Proof.
  intros Hc Hlow Hbit Hext.
  replace (Z.to_nat (kBitsPerIntPtrT - lo))
    with (Z.to_nat (c - lo) + S (Z.to_nat (kBitsPerIntPtrT - (c + 1))))%nat
    by lia.
  rewrite bits_between_app.
  rewrite bits_between_none by (intros j Hj; apply Hlow; lia).
  replace (lo + Z.of_nat (Z.to_nat (c - lo))) with c by lia.
  cbn [bits_between app]. rewrite Hbit. cbn [app]. f_equal.
  apply bits_between_ext. intros j Hj. symmetry. apply Hext. lia.
Qed.

Lemma set_bits_In w j :
  In j (set_bits w) <-> 0 <= j < kBitsPerIntPtrT /\ Z.testbit w j = true.
Proof.
  unfold set_bits. rewrite bits_between_In.
  pose proof kBitsPerIntPtrT_pos. rewrite Z2Nat.id by lia. reflexivity.
Qed.

Lemma set_bits_sorted w : StronglySorted Z.lt (set_bits w).
Proof. apply bits_between_sorted. Qed.

(** *** The extraction loop *)

Lemma visit_all_app {St : Type} (visitor : Z -> St -> St) l1 l2 s :
  visit_all visitor (l1 ++ l2) s = visit_all visitor l2 (visit_all visitor l1 s).
Proof. unfold visit_all. apply fold_left_app. Qed.

Lemma VisitWordBits_run {St : Type} (visitor : Z -> St -> St) (ptr_base : Z) :
  forall (fuel : nat) (w lo : Z) (s : St),
    word_range w -> 0 < w -> 0 <= lo ->
    (forall j, j < lo -> Z.testbit w j = false) ->
    (Z.to_nat (kBitsPerIntPtrT - lo) <= fuel)%nat ->
    VisitWordBits visitor false fuel ptr_base w s
    = Ok (visit_all visitor
            (map (fun j => uintptr_t (ptr_base + j * kAlignment))
               (bits_between w lo (Z.to_nat (kBitsPerIntPtrT - lo)))) s,
          false).
Proof.
  induction fuel as [| fuel IH]; intros w lo s Hr Hw Hlo Hlow Hfuel;
    pose proof (CTZ_range w lo Hr Hw Hlow) as Hc;
    [lia |].
  destruct (CTZ_spec w Hw) as [_ [Hbit Hbelow]].
  destruct (clear_lowest_bit w (CTZ w) Hr ltac:(lia)) as [Hr' Hbits'].
  cbn [VisitWordBits].
  set (c := CTZ w) in *.
  set (w' := Z.lxor w (uintptr_t (Z.shiftl 1 c))) in *.
  rewrite (bits_between_lowest w w' lo c) ; [| lia | | exact Hbit |].
  2:{ intros j Hj. apply Hbelow. lia. }
  2:{ intros j Hj. rewrite Hbits'.
      destruct (Z.eqb_spec c j); [lia | apply xorb_false_r]. }
  destruct (Z.eqb_spec w' 0) as [Hz | Hnz].
  - rewrite bits_between_none; [reflexivity |].
    intros j _. rewrite Hz. apply Z.bits_0.
  - cbn [map]. unfold visit_all at 1. cbn [fold_left].
    apply (IH w' (c + 1)); [exact Hr' | | lia | | lia].
    + unfold word_range in Hr'. lia.
    + intros j Hj. rewrite Hbits'.
      destruct (Z.eqb_spec c j) as [<- | Hne].
      * rewrite Hbit. reflexivity.
      * rewrite Hbelow by lia. reflexivity.
Qed.

Lemma VisitWord_run {St : Type} (visitor : Z -> St -> St) ptr_base w (s : St) :
  word_range w ->
  VisitWord visitor false ptr_base w s
  = Ok (visit_all visitor
          (map (fun j => uintptr_t (ptr_base + j * kAlignment)) (set_bits w)) s,
        false).
Proof.
  intros Hr. unfold VisitWord, set_bits.
  destruct (Z.eqb_spec w 0) as [-> | Hnz].
  - rewrite bits_between_none; [reflexivity |]. intros j _. apply Z.bits_0.
  - replace (Z.to_nat kBitsPerIntPtrT) with (Z.to_nat (kBitsPerIntPtrT - 0))
      by (f_equal; lia).
    apply VisitWordBits_run; [exact Hr | | lia | | lia].
    + unfold word_range in Hr. lia.
    + intros j Hj. apply Z.testbit_neg_r. exact Hj.
Qed.

(** *** Scans of several words *)

(** The address computed for bit [j] of word [i], wrap-around included. *)
Lemma WordBase_slot bm i j :
  uintptr_t (WordBase bm i + j * kAlignment)
  = uintptr_t (heap_begin_ bm + (i * kBitsPerIntPtrT + j) * kAlignment).
Proof.
  unfold WordBase, IndexToOffset, uintptr_t, wrap.
  rewrite Zplus_mod_idemp_l. rewrite <- Z.add_assoc. rewrite Zplus_mod_idemp_l.
  f_equal. ring.
Qed.

Lemma word_at_range bm i : Valid bm -> word_range (word_at bm i).
Proof.
  intros V. unfold word_at.
  destruct (nth_in_or_default (Z.to_nat i) (words_ bm) 0) as [Hin | Hd].
  - pose proof (valid_words bm V) as HF. rewrite Forall_forall in HF.
    apply HF. exact Hin.
  - rewrite Hd. pose proof word_modulus_pos. unfold word_range. lia.
Qed.

Lemma load_word_at bm i :
  0 <= i < Z.of_nat (length (words_ bm)) -> load_word bm i = Ok (word_at bm i).
Proof.
  intros Hi. destruct (load_word_Ok bm i Hi) as [w [Hnth Hload]].
  rewrite Hload. unfold word_at. rewrite (nth_error_nth _ _ 0 Hnth).
  reflexivity.
Qed.

Lemma VisitWord_slots {St : Type} (visitor : Z -> St -> St) bm i w (s : St) :
  0 <= heap_begin_ bm -> 0 <= i -> word_range w ->
  (forall j, In j (set_bits w) ->
     heap_begin_ bm + (i * kBitsPerIntPtrT + j) * kAlignment
     < 2 ^ kBitsPerIntPtrT) ->
  VisitWord visitor false (WordBase bm i) w s
  = Ok (visit_all visitor
          (map (fun j => heap_begin_ bm + (i * kBitsPerIntPtrT + j) * kAlignment)
             (set_bits w)) s,
        false).
Proof.
  intros Hb Hi Hw Hok. rewrite VisitWord_run by exact Hw.
  do 3 f_equal. apply map_ext_in. intros j Hj.
  rewrite WordBase_slot. apply uintptr_t_small.
  pose proof (Hok j Hj). apply set_bits_In in Hj.
  pose proof kBitsPerIntPtrT_pos. unfold is_address. split; [nia | lia].
Qed.

Lemma range_word_range bm index_start bit_start index_end bit_end i :
  Valid bm -> 0 <= bit_end ->
  word_range (range_word bm index_start bit_start index_end bit_end i).
Proof.
  intros V Hbe. unfold range_word. pose proof (word_at_range bm i V) as Hw.
  assert (Hw1 : word_range
                  (if i =? index_start
                   then Z.land (word_at bm i)
                          (not_word (Z.shiftl 1 bit_start - 1))
                   else word_at bm i)).
  { destruct (i =? index_start); [| exact Hw].
    apply land_word_range; [exact Hw | apply not_word_range]. }
  destruct (i =? index_end); [| exact Hw1].
  apply land_word_range; [exact Hw1 |].
  rewrite Z.shiftl_1_l. assert (0 < 2 ^ bit_end) by (apply Z.pow_pos_nonneg; lia).
  lia.
Qed.

Lemma VisitWords_run {St : Type} (visitor : Z -> St -> St) bm
  index_start bit_start index_end bit_end :
  Valid bm -> 0 <= bit_end ->
  forall (count : nat) (i : Z) (s : St),
    0 <= i -> i + Z.of_nat count <= Z.of_nat (length (words_ bm)) ->
    (forall i' j, i <= i' < i + Z.of_nat count ->
       In j (set_bits (range_word bm index_start bit_start index_end bit_end i')) ->
       heap_begin_ bm + (i' * kBitsPerIntPtrT + j) * kAlignment
       < 2 ^ kBitsPerIntPtrT) ->
    VisitWords visitor false bm index_start bit_start index_end bit_end count i s
    = Ok (visit_all visitor
            (slots_of_words
               (range_word bm index_start bit_start index_end bit_end)
               (heap_begin_ bm) count i) s).
Proof.
  intros V Hbe. induction count as [| count IH]; intros i s Hi Hlen Hok.
  - reflexivity.
  - cbn [VisitWords slots_of_words].
    rewrite load_word_at by lia. cbn [bind].
    change (if i =? index_end
            then Z.land
                   (if i =? index_start
                    then Z.land (word_at bm i)
                           (not_word (Z.shiftl 1 bit_start - 1))
                    else word_at bm i) (Z.shiftl 1 bit_end - 1)
            else if i =? index_start
                 then Z.land (word_at bm i)
                        (not_word (Z.shiftl 1 bit_start - 1))
                 else word_at bm i)
      with (range_word bm index_start bit_start index_end bit_end i).
    rewrite VisitWord_slots.
    + cbn [bind snd fst]. rewrite visit_all_app.
      apply IH; [lia | lia |].
      intros i' j Hi' Hj. apply Hok; [lia | exact Hj].
    + apply (valid_begin bm V).
    + exact Hi.
    + apply range_word_range; assumption.
    + intros j Hj. apply Hok; [lia | exact Hj].
Qed.

(** *** The slots of the scanned words *)

Lemma slots_of_words_In word_of heap_begin count i x :
  In x (slots_of_words word_of heap_begin count i)
  <-> exists i' j,
        i <= i' < i + Z.of_nat count
        /\ 0 <= j < kBitsPerIntPtrT
        /\ Z.testbit (word_of i') j = true
        /\ x = heap_begin + (i' * kBitsPerIntPtrT + j) * kAlignment.
Proof.
  revert i. induction count as [| count IH]; intros i.
  - simpl. split; [tauto | intros [i' [j [Hi' _]]]; lia].
  - cbn [slots_of_words]. rewrite in_app_iff, IH, in_map_iff. split.
    + intros [[j [Hx Hj]] | [i' [j [Hi' Hrest]]]].
      * apply set_bits_In in Hj. exists i, j.
        split; [lia |]. split; [apply Hj |]. split; [apply Hj | auto].
      * exists i', j. split; [lia | exact Hrest].
    + intros [i' [j [Hi' [Hj [Hbit Hx]]]]].
      destruct (Z.eq_dec i' i) as [-> | Hne].
      * left. exists j. split; [auto |]. apply set_bits_In. auto.
      * right. exists i', j. split; [lia | auto].
Qed.

Lemma StronglySorted_map_slots heap_begin i l :
  StronglySorted Z.lt l ->
  StronglySorted Z.lt
    (map (fun j => heap_begin + (i * kBitsPerIntPtrT + j) * kAlignment) l).
Proof.
  induction 1 as [| h t Ht IH Hh]; simpl; constructor; [exact IH |].
  apply Forall_map. eapply Forall_impl; [| exact Hh].
  intros y Hy. cbv beta. nia.
Qed.

Lemma slots_of_words_sorted word_of heap_begin count i :
  StronglySorted Z.lt (slots_of_words word_of heap_begin count i).
Proof.
  revert i. induction count as [| count IH]; intros i; [constructor |].
  cbn [slots_of_words]. apply StronglySorted_app.
  - apply StronglySorted_map_slots. apply set_bits_sorted.
  - apply IH.
  - intros x y Hx Hy. apply in_map_iff in Hx. destruct Hx as [j [<- Hj]].
    apply set_bits_In in Hj. apply slots_of_words_In in Hy.
    destruct Hy as [i' [j' [Hi' [Hj' [_ ->]]]]].
    pose proof kBitsPerIntPtrT_pos.
    assert (i * kBitsPerIntPtrT + j < i' * kBitsPerIntPtrT + j') by nia.
    nia.
Qed.

(** *** Slots of a range *)

Lemma SlotCeil_le_iff offset k : SlotCeil offset <= k <-> offset <= k * kAlignment.
Proof.
  unfold SlotCeil.
  pose proof (Z.div_mod offset kAlignment ltac:(lia)) as E.
  pose proof (Z.mod_pos_bound offset kAlignment kAlignment_pos) as Hr.
  destruct (Z.eqb_spec (offset mod kAlignment) 0) as [Hz | Hnz]; split; intros H; nia.
Qed.

Lemma SlotCeil_nonneg offset : 0 <= offset -> 0 <= SlotCeil offset.
Proof.
  intros Hoff. unfold SlotCeil.
  pose proof (Z.div_pos offset kAlignment Hoff kAlignment_pos).
  destruct (offset mod kAlignment =? 0); lia.
Qed.

Lemma aligned_slot bm x :
  Valid bm -> aligned x ->
  x = heap_begin_ bm + (x - heap_begin_ bm) / kAlignment * kAlignment.
Proof.
  intros V Hx. destruct (valid_begin bm V) as [_ Hb]. unfold aligned in *.
  pose proof (Z.div_mod (x - heap_begin_ bm) kAlignment ltac:(lia)) as E.
  assert (Hm : (x - heap_begin_ bm) mod kAlignment = 0).
  { rewrite Zminus_mod, Hx, Hb. reflexivity. }
  rewrite Hm in E. lia.
Qed.

Lemma slot_aligned bm k :
  Valid bm -> aligned (heap_begin_ bm + k * kAlignment).
Proof.
  intros V. destruct (valid_begin bm V) as [_ Hb]. unfold aligned in *.
  rewrite Z_mod_plus_full. exact Hb.
Qed.

(** [Test] at the address of slot [k]. *)
Lemma Test_slot bm k :
  Valid bm -> 0 <= k -> k * kAlignment < CoveredBytes bm ->
  heap_begin_ bm + k * kAlignment < 2 ^ kBitsPerIntPtrT ->
  Test bm (heap_begin_ bm + k * kAlignment)
  = Ok (Z.testbit (word_at bm (k / kBitsPerIntPtrT)) (k mod kBitsPerIntPtrT)).
Proof.
  intros V Hk Hcov Haddr. destruct (valid_begin bm V) as [Hb _].
  assert (Hoff : uintptr_t (heap_begin_ bm + k * kAlignment - heap_begin_ bm)
                 = k * kAlignment).
  { replace (heap_begin_ bm + k * kAlignment - heap_begin_ bm)
      with (k * kAlignment) by lia.
    apply uintptr_t_small. unfold is_address. nia. }
  assert (Hhas : HasAddress bm (heap_begin_ bm + k * kAlignment) = true).
  { apply HasAddress_spec. rewrite Hoff. exact Hcov. }
  pose proof (HasAddress_index bm _ V Hhas) as Hidx.
  rewrite Test_spec, Hhas. rewrite Hoff in *.
  assert (Hi : OffsetToIndex (k * kAlignment) = k / kBitsPerIntPtrT).
  { unfold OffsetToIndex. rewrite Z.div_mul by lia. reflexivity. }
  assert (Hj : OffsetBitIndex (k * kAlignment) = k mod kBitsPerIntPtrT).
  { unfold OffsetBitIndex. rewrite Z.div_mul by lia. reflexivity. }
  rewrite Hi, Hj in *.
  destruct (load_word_Ok bm _ Hidx) as [w [Hnth _]]. rewrite Hnth.
  unfold word_at. rewrite (nth_error_nth _ _ 0 Hnth). reflexivity.
Qed.


Lemma testbit_low_mask b j :
  0 <= b -> 0 <= j -> Z.testbit (Z.shiftl 1 b - 1) j = (j <? b).
Proof.
  intros Hb Hj.
  replace (Z.shiftl 1 b - 1) with (Z.ones b) by (unfold Z.ones; lia).
  apply Z.testbit_ones_nonneg; assumption.
Qed.

(** The bits that the scan of a range keeps of word [i]. *)
Lemma range_word_testbit bm index_start bit_start index_end bit_end i j :
  0 <= bit_start -> 0 <= bit_end -> 0 <= j < kBitsPerIntPtrT ->
  Z.testbit (range_word bm index_start bit_start index_end bit_end i) j
  = Z.testbit (word_at bm i) j
    && (if i =? index_start then bit_start <=? j else true)
    && (if i =? index_end then j <? bit_end else true).
Proof.
  intros Hbs Hbe Hj. unfold range_word.
  assert (H1 : Z.testbit
                 (if i =? index_start
                  then Z.land (word_at bm i)
                         (not_word (Z.shiftl 1 bit_start - 1))
                  else word_at bm i) j
               = Z.testbit (word_at bm i) j
                 && (if i =? index_start then bit_start <=? j else true)).
  { destruct (i =? index_start); [| symmetry; apply andb_true_r].
    rewrite Z.land_spec, testbit_not_word by exact Hj.
    rewrite testbit_low_mask by lia. rewrite Z.leb_antisym. reflexivity. }
  destruct (i =? index_end).
  - rewrite Z.land_spec, H1, testbit_low_mask by lia. reflexivity.
  - rewrite H1. symmetry. apply andb_true_r.
Qed.

(** Slot [i * kBitsPerIntPtrT + j] passes the masks of the first and of the
    last word exactly when it lies between the first and the last slot. *)
Lemma edge_masks_iff slot_start slot_end i j :
  0 <= j < kBitsPerIntPtrT ->
  slot_start / kBitsPerIntPtrT <= i <= (slot_end - 1) / kBitsPerIntPtrT ->
  (if i =? slot_start / kBitsPerIntPtrT
   then slot_start mod kBitsPerIntPtrT <=? j else true)
  && (if i =? slot_end / kBitsPerIntPtrT
      then j <? slot_end mod kBitsPerIntPtrT else true) = true
  <-> slot_start <= i * kBitsPerIntPtrT + j < slot_end.
Proof.
  intros Hj Hi. pose proof kBitsPerIntPtrT_pos as HB.
  pose proof (Z.div_mod slot_start kBitsPerIntPtrT ltac:(lia)) as Es.
  pose proof (Z.mod_pos_bound slot_start kBitsPerIntPtrT HB) as Hs.
  pose proof (Z.div_mod slot_end kBitsPerIntPtrT ltac:(lia)) as Ee.
  pose proof (Z.mod_pos_bound slot_end kBitsPerIntPtrT HB) as He.
  pose proof (Z.div_mod (slot_end - 1) kBitsPerIntPtrT ltac:(lia)) as El.
  pose proof (Z.mod_pos_bound (slot_end - 1) kBitsPerIntPtrT HB) as Hl.
  set (is_ := slot_start / kBitsPerIntPtrT) in *.
  set (bs := slot_start mod kBitsPerIntPtrT) in *.
  set (ie := slot_end / kBitsPerIntPtrT) in *.
  set (be := slot_end mod kBitsPerIntPtrT) in *.
  set (il := (slot_end - 1) / kBitsPerIntPtrT) in *.
  set (bl := (slot_end - 1) mod kBitsPerIntPtrT) in *.
  rewrite andb_true_iff.
  assert (Hstart : (if i =? is_ then bs <=? j else true) = true
                   <-> slot_start <= i * kBitsPerIntPtrT + j).
  { destruct (Z.eqb_spec i is_) as [-> | Hne].
    - rewrite Z.leb_le. lia.
    - split; [intros _ | reflexivity]. nia. }
  assert (Hend : (if i =? ie then j <? be else true) = true
                 <-> i * kBitsPerIntPtrT + j < slot_end).
  { destruct (Z.eqb_spec i ie) as [-> | Hne].
    - rewrite Z.ltb_lt. lia.
    - split; [intros _ | reflexivity]. nia. }
  rewrite Hstart, Hend. lia.
Qed.

(** *** VisitMarkedRange *)

Lemma slot_div_mod i j :
  0 <= j < kBitsPerIntPtrT ->
  (i * kBitsPerIntPtrT + j) / kBitsPerIntPtrT = i
  /\ (i * kBitsPerIntPtrT + j) mod kBitsPerIntPtrT = j.
Proof.
  intros Hj. split.
  - rewrite Z.div_add_l by lia. rewrite Z.div_small by exact Hj. lia.
  - rewrite Z.add_comm, Z_mod_plus_full. apply Z.mod_small. exact Hj.
Qed.

(** The marked slot addresses of a range are the addresses of the marked
    slots from the first slot at or above [b] to the last one below [e]. *)
Lemma marked_in_range_iff bm b e x :
  Valid bm -> heap_begin_ bm <= b -> b <= e ->
  e <= heap_begin_ bm + CoveredBytes bm -> is_address e ->
  (b <= x < e /\ aligned x /\ Test bm x = Ok true)
  <-> exists k,
        SlotCeil (b - heap_begin_ bm) <= k < SlotCeil (e - heap_begin_ bm)
        /\ x = heap_begin_ bm + k * kAlignment
        /\ Z.testbit (word_at bm (k / kBitsPerIntPtrT))
             (k mod kBitsPerIntPtrT) = true.
Proof.
  intros V Hb Hbe He [_ Hae]. destruct (valid_begin bm V) as [Hhb _].
  pose proof (SlotCeil_nonneg (b - heap_begin_ bm) ltac:(lia)) as Hss0.
  split.
  - intros [Hr [Hax Ht]].
    pose proof (aligned_slot bm x V Hax) as Hx.
    set (k := (x - heap_begin_ bm) / kAlignment) in *.
    assert (Hks : SlotCeil (b - heap_begin_ bm) <= k)
      by (apply SlotCeil_le_iff; lia).
    assert (Hke : k < SlotCeil (e - heap_begin_ bm)).
    { destruct (Z_lt_le_dec k (SlotCeil (e - heap_begin_ bm))) as [Hlt | Hge];
        [exact Hlt |]. apply SlotCeil_le_iff in Hge. lia. }
    exists k. split; [lia |]. split; [exact Hx |].
    rewrite Hx in Ht. rewrite Test_slot in Ht by (try assumption; lia).
    injection Ht as Ht. exact Ht.
  - intros [k [[Hks Hke] [-> Hbit]]].
    apply SlotCeil_le_iff in Hks.
    assert (Hlt : k * kAlignment < e - heap_begin_ bm).
    { destruct (Z_lt_le_dec (k * kAlignment) (e - heap_begin_ bm)) as [Hlt | Hge];
        [exact Hlt |]. apply SlotCeil_le_iff in Hge. lia. }
    split; [lia |]. split; [apply slot_aligned; exact V |].
    rewrite Test_slot by (try assumption; lia). rewrite Hbit. reflexivity.
Qed.

(** C2: for every range [b, e) within the coverage of a valid bitmap and
    whatever its bits, [VisitMarkedRange(b, e, visitor)] returns after
    calling the visitor on the addresses of a strictly ascending list, so
    once on each, that holds exactly the aligned addresses of [b, e) whose
    bit is set. *)
Theorem VisitMarkedRange_visits_marked_slots bm b e :
  Valid bm -> heap_begin_ bm <= b -> b <= e ->
  e <= heap_begin_ bm + CoveredBytes bm -> is_address e ->
  (forall (St : Type) (visitor : Z -> St -> St) (s : St),
     VisitMarkedRange visitor false bm b e s
     = Ok (visit_all visitor (MarkedSlots bm b e) s))
  /\ StronglySorted Z.lt (MarkedSlots bm b e)
  /\ (forall x, In x (MarkedSlots bm b e)
        <-> b <= x < e /\ aligned x /\ Test bm x = Ok true).
Proof.
  intros V Hb Hbe He Hae.
  pose proof (fun x => marked_in_range_iff bm b e x V Hb Hbe He Hae) as Hmem.
  destruct Hae as [_ Hae]. destruct (valid_begin bm V) as [Hhb _].
  pose proof kBitsPerIntPtrT_pos as HB.
  assert (Hos : uintptr_t (b - heap_begin_ bm) = b - heap_begin_ bm)
    by (apply uintptr_t_small; unfold is_address; lia).
  assert (Hoe : uintptr_t (e - heap_begin_ bm) = e - heap_begin_ bm)
    by (apply uintptr_t_small; unfold is_address; lia).
  unfold VisitMarkedRange, MarkedSlots. rewrite Hos, Hoe.
  pose proof (SlotCeil_nonneg (b - heap_begin_ bm) ltac:(lia)) as Hss0.
  set (slot_start := SlotCeil (b - heap_begin_ bm)) in *.
  set (slot_end := SlotCeil (e - heap_begin_ bm)) in *.
  destruct (Z.leb_spec slot_end slot_start) as [Hempty | Hlt].
  { split; [reflexivity |]. split; [constructor |].
    intros x. rewrite Hmem. split; [intros [] | intros [k [Hk _]]; lia]. }
  assert (Hse : slot_end
                <= Z.of_nat (length (words_ bm)) * kBitsPerIntPtrT).
  { apply SlotCeil_le_iff. rewrite (valid_length bm V).
    unfold CoveredBytes, Size in He. lia. }
  pose proof (Z.mod_pos_bound slot_start kBitsPerIntPtrT HB) as Hbs.
  pose proof (Z.mod_pos_bound slot_end kBitsPerIntPtrT HB) as Hbe'.
  assert (His : 0 <= slot_start / kBitsPerIntPtrT)
    by (apply Z.div_pos; lia).
  assert (Hil : slot_start / kBitsPerIntPtrT
                <= (slot_end - 1) / kBitsPerIntPtrT)
    by (apply Z.div_le_mono; lia).
  assert (Hn : (slot_end - 1) / kBitsPerIntPtrT
               < Z.of_nat (length (words_ bm)))
    by (apply Z.div_lt_upper_bound; lia).
  set (index_start := slot_start / kBitsPerIntPtrT) in *.
  set (index_last := (slot_end - 1) / kBitsPerIntPtrT) in *.
  assert (Hedge : forall i j,
            index_start <= i <= index_last -> 0 <= j < kBitsPerIntPtrT ->
            Z.testbit
              (range_word bm index_start (slot_start mod kBitsPerIntPtrT)
                 (slot_end / kBitsPerIntPtrT) (slot_end mod kBitsPerIntPtrT) i)
              j = true
            <-> Z.testbit (word_at bm i) j = true
                /\ slot_start <= i * kBitsPerIntPtrT + j < slot_end).
  { subst index_start index_last. intros i j Hi Hj.
    rewrite range_word_testbit by lia.
    rewrite <- andb_assoc, andb_true_iff.
    rewrite (edge_masks_iff slot_start slot_end i j Hj Hi). reflexivity. }
  split; [| split].
  - intros St visitor s. apply VisitWords_run; [exact V | lia | lia | lia |].
    intros i j Hi Hj. apply set_bits_In in Hj. destruct Hj as [Hj Hbit].
    apply Hedge in Hbit; [| lia | exact Hj]. destruct Hbit as [_ Hk].
    assert (Hlt' : (i * kBitsPerIntPtrT + j) * kAlignment < e - heap_begin_ bm).
    { destruct (Z_lt_le_dec ((i * kBitsPerIntPtrT + j) * kAlignment)
                  (e - heap_begin_ bm)) as [H | H]; [exact H |].
      apply SlotCeil_le_iff in H. fold slot_end in H. lia. }
    lia.
  - apply slots_of_words_sorted.
  - intros x. rewrite Hmem, slots_of_words_In. split.
    + intros [i [j [Hi [Hj [Hbit Hx]]]]].
      apply Hedge in Hbit; [| lia | exact Hj]. destruct Hbit as [Hbit Hk].
      destruct (slot_div_mod i j Hj) as [Hd Hm].
      exists (i * kBitsPerIntPtrT + j).
      split; [exact Hk |]. split; [exact Hx |]. rewrite Hd, Hm. exact Hbit.
    + intros [k [Hk [Hx Hbit]]].
      pose proof (Z.div_mod k kBitsPerIntPtrT ltac:(lia)) as Ek.
      pose proof (Z.mod_pos_bound k kBitsPerIntPtrT HB) as Hj.
      assert (Hi : index_start <= k / kBitsPerIntPtrT <= index_last).
      { split; apply Z.div_le_mono; lia. }
      exists (k / kBitsPerIntPtrT), (k mod kBitsPerIntPtrT).
      split; [lia |]. split; [exact Hj |]. split.
      * apply Hedge; [exact Hi | exact Hj |]. split; [exact Hbit | lia].
      * rewrite Hx. f_equal. f_equal. lia.
Qed.

(** *** SweepWalk *)















(** ** Further properties of the addressing arithmetic *)

(** X1: the bit index of an offset is always below the word width, so the
    shift of [OffsetToMask] never leaves the word: the mask is the power of
    two of the bit index, a word with exactly that bit. *)
Theorem OffsetToMask_is_one_bit offset :
  0 <= OffsetBitIndex offset < kBitsPerIntPtrT
  /\ OffsetToMask offset = 2 ^ OffsetBitIndex offset
  /\ 0 < OffsetToMask offset < 2 ^ kBitsPerIntPtrT
  /\ (forall j, 0 <= j ->
        Z.testbit (OffsetToMask offset) j = (OffsetBitIndex offset =? j)).
Proof.
  pose proof (OffsetBitIndex_range offset) as Hb.
  pose proof (OffsetToMask_pow2 offset) as Hm.
  split; [exact Hb |]. split; [exact Hm |]. rewrite Hm. split.
  - split; [apply Z.pow_pos_nonneg; lia | apply Z.pow_lt_mono_r; lia].
  - intros j Hj. apply Z.pow2_bits_eqb. lia.
Qed.

(** X2: two offsets have the same word index and the same bit index
    exactly when they lie in the same slot, that is when they have the same
    quotient by the alignment; they then have the same mask. *)
Theorem index_and_bit_identify_the_slot off1 off2 :
  (OffsetToIndex off1 = OffsetToIndex off2
   /\ OffsetBitIndex off1 = OffsetBitIndex off2
   <-> off1 / kAlignment = off2 / kAlignment)
  /\ (off1 / kAlignment = off2 / kAlignment ->
      OffsetToMask off1 = OffsetToMask off2).
Proof.
  split; [split |].
  - intros [Hi Hb]. rewrite (slot_split off1), (slot_split off2), Hi, Hb.
    reflexivity.
  - intros Hs. unfold OffsetToIndex, OffsetBitIndex. rewrite Hs.
    split; reflexivity.
  - intros Hs. unfold OffsetToMask, OffsetBitIndex. rewrite Hs. reflexivity.
Qed.

(** X3: the offset that a scan rebuilds from word [i] and bit [j],
    [IndexToOffset(i) + j * kAlignment], and every offset of the same slot,
    maps back to word [i] and bit [j], when the offset of word [i] does not
    overflow [T] and the rebuilt offset is a value of [size_t], the type of
    the parameters of [OffsetToIndex] and [OffsetBitIndex]. *)
Theorem word_and_bit_round_trip T_bits i j r :
  0 <= i -> i * kAlignment * kBitsPerIntPtrT < 2 ^ T_bits ->
  0 <= j < kBitsPerIntPtrT -> 0 <= r < kAlignment ->
  is_address (IndexToOffset T_bits i + j * kAlignment + r) ->
  OffsetToIndex (size_t (IndexToOffset T_bits i + j * kAlignment + r)) = i
  /\ OffsetBitIndex (uintptr_t (IndexToOffset T_bits i + j * kAlignment + r))
     = j.
Proof.
  intros Hi Hov Hj Hr Hfit.
  change (size_t (IndexToOffset T_bits i + j * kAlignment + r))
    with (uintptr_t (IndexToOffset T_bits i + j * kAlignment + r)).
  rewrite (uintptr_t_small _ Hfit). clear Hfit.
  rewrite IndexToOffset_small by assumption.
  assert (Hslot : (i * kAlignment * kBitsPerIntPtrT + j * kAlignment + r)
                  / kAlignment = i * kBitsPerIntPtrT + j).
  { replace (i * kAlignment * kBitsPerIntPtrT + j * kAlignment + r)
      with ((i * kBitsPerIntPtrT + j) * kAlignment + r) by ring.
    rewrite Z.div_add_l by lia. rewrite Z.div_small by exact Hr. lia. }
  unfold OffsetToIndex, OffsetBitIndex. rewrite Hslot.
  apply slot_div_mod. exact Hj.
Qed.

(** X4: for every offset, a value of [size_t] that [T] can hold,
    [IndexToOffset] of its word index plus its bit index times the
    alignment is the offset rounded down to the alignment: word and bit
    name the slot and forget where in the slot the offset was. *)
Theorem IndexToOffset_plus_bit_is_slot_base T_bits off :
  is_address off -> off < 2 ^ T_bits ->
  IndexToOffset T_bits (OffsetToIndex off) + OffsetBitIndex off * kAlignment
  = off - off mod kAlignment.
Proof.
  intros [H0 _] H1.
  destruct (OffsetToIndex_floor off H0) as [Hlo _].
  rewrite IndexToOffset_small;
    [| apply OffsetToIndex_nonneg; exact H0 | lia].
  pose proof (slot_split off) as Hs.
  pose proof (Z.div_mod off kAlignment ltac:(lia)) as E.
  replace (OffsetToIndex off * kAlignment * kBitsPerIntPtrT
           + OffsetBitIndex off * kAlignment)
    with (kAlignment
          * (OffsetToIndex off * kBitsPerIntPtrT + OffsetBitIndex off)) by ring.
  rewrite <- Hs. lia.
Qed.

(** X5: an offset has word index [i] exactly when it lies between the
    offset of word [i] and the offset of word [i + 1], when the latter does
    not overflow: the words cover consecutive, disjoint windows. *)
Theorem OffsetToIndex_eq_iff_in_window T_bits off i :
  0 <= off -> 0 <= i ->
  (i + 1) * kAlignment * kBitsPerIntPtrT < 2 ^ T_bits ->
  OffsetToIndex off = i
  <-> IndexToOffset T_bits i <= off < IndexToOffset T_bits (i + 1).
Proof.
  intros Hoff Hi Hov. pose proof bytes_per_word_pos as Hm.
  rewrite !IndexToOffset_small by nia.
  destruct (OffsetToIndex_floor off Hoff) as [Hlo Hhi].
  split.
  - intros <-. split; assumption.
  - intros [Hwlo Hwhi].
    replace off
      with (i * kAlignment * kBitsPerIntPtrT
            + (off - i * kAlignment * kBitsPerIntPtrT)) by lia.
    apply OffsetToIndex_word. nia.
Qed.

(** ** Further properties of HasAddress and SetHeapSize *)

(** X6: a bitmap whose store is smaller than one word covers no address:
    [HasAddress] is false everywhere, below and above [heap_begin_] alike.
    The default-constructed bitmap is one. *)
Theorem HasAddress_false_without_words :
  (forall bm a, 0 <= bitmap_size_ bm < sizeof_intptr_t ->
     HasAddress bm a = false)
  /\ (forall a, HasAddress SpaceBitmap_default a = false).
Proof.
  assert (H : forall bm a, 0 <= bitmap_size_ bm < sizeof_intptr_t ->
                HasAddress bm a = false).
  { intros bm a Hs. unfold HasAddress. rewrite Z.div_small by exact Hs.
    apply Z.ltb_ge. apply offset_index_nonneg. }
  split; [exact H |]. intros a. apply H. cbn. lia.
Qed.

(** X7: [HasAddress] does not look at the alignment of the address: two
    addresses at or above [heap_begin_] in the same slot get the same
    answer; and the addresses it accepts at or above [heap_begin_] reach
    down to [heap_begin_] without a gap. *)
Theorem HasAddress_by_slot_and_without_gap bm a x :
  0 <= heap_begin_ bm -> is_address a -> is_address x ->
  heap_begin_ bm <= a -> heap_begin_ bm <= x ->
  ((x - heap_begin_ bm) / kAlignment = (a - heap_begin_ bm) / kAlignment ->
   HasAddress bm x = HasAddress bm a)
  /\ (x <= a -> HasAddress bm a = true -> HasAddress bm x = true).
Proof.
  intros Hb [Ha0 Ha1] [Hx0 Hx1] Hga Hgx.
  assert (Hoa : uintptr_t (a - heap_begin_ bm) = a - heap_begin_ bm)
    by (apply uintptr_t_small; unfold is_address; lia).
  assert (Hox : uintptr_t (x - heap_begin_ bm) = x - heap_begin_ bm)
    by (apply uintptr_t_small; unfold is_address; lia).
  split.
  - intros Hslot. unfold HasAddress, OffsetToIndex.
    rewrite Hoa, Hox, Hslot. reflexivity.
  - intros Hle Hhas. apply HasAddress_spec. apply HasAddress_spec in Hhas.
    rewrite Hoa in Hhas. rewrite Hox. lia.
Qed.

Lemma HeapSize_CoveredBytes bm :
  0 <= Size bm -> CoveredBytes bm < 2 ^ 64 -> HeapSize bm = CoveredBytes bm.
Proof.
  intros Hs Hc. unfold HeapSize. apply IndexToOffset_small; [| exact Hc].
  apply Z.div_pos; lia.
Qed.

(** X8: [HeapSize()] is a whole number of words' worth of heap bytes, and
    it is the length of what [HasAddress] accepts: an address at or above
    [heap_begin_] is accepted exactly when its offset is below
    [HeapSize()]. *)
Theorem HasAddress_iff_below_HeapSize bm a :
  0 <= heap_begin_ bm -> is_address a -> heap_begin_ bm <= a ->
  0 <= Size bm -> CoveredBytes bm < 2 ^ 64 ->
  HeapSize bm mod (kAlignment * kBitsPerIntPtrT) = 0
  /\ (HasAddress bm a = true <-> a - heap_begin_ bm < HeapSize bm).
Proof.
  intros Hb [Ha0 Ha1] Hge Hs Hc.
  rewrite (HeapSize_CoveredBytes bm Hs Hc). split.
  - unfold CoveredBytes. rewrite <- Z.mul_assoc. apply Z_mod_mult.
  - rewrite HasAddress_spec.
    rewrite uintptr_t_small by (unfold is_address; lia). reflexivity.
Qed.

(** What a [SetHeapSize] that returns has done. *)
Lemma SetHeapSize_Ok_inv bm bytes bm' :
  sizeof_intptr_t <= 8 -> is_address bytes ->
  SetHeapSize bm bytes = Ok bm' ->
  OffsetToIndex bytes * kAlignment * kBitsPerIntPtrT = bytes
  /\ bm' = set_bitmap_size_
             (set_heap_limit_ bm (uintptr_t (heap_begin_ bm + bytes)))
             (OffsetToIndex bytes * sizeof_intptr_t)
  /\ CoveredBytes bm' = bytes.
Proof.
  intros Hsz Hbytes Hrun. unfold SetHeapSize in Hrun.
  rewrite SetHeapSize_HeapSize in Hrun by assumption.
  assert (Hw : 2 ^ kBitsPerIntPtrT <= 2 ^ 64).
  { apply Z.pow_le_mono_r; [lia |]. unfold kBitsPerIntPtrT, kBitsPerByte. lia. }
  assert (Hu : uint64_t bytes = bytes).
  { apply wrap_small. unfold is_address in Hbytes. lia. }
  rewrite Hu in Hrun.
  destruct (Z.eqb_spec (OffsetToIndex bytes * kAlignment * kBitsPerIntPtrT) bytes)
    as [Heq | Hne]; [| discriminate].
  destruct Hbytes as [Hb0 Hb1].
  pose proof (OffsetToIndex_nonneg bytes Hb0) as Hq.
  pose proof kBitsPerIntPtrT_pos as HB.
  assert (Hqs : size_t (OffsetToIndex bytes * sizeof_intptr_t)
                = OffsetToIndex bytes * sizeof_intptr_t).
  { apply wrap_small. unfold kBitsPerIntPtrT, kBitsPerByte in *. nia. }
  rewrite Hqs in Hrun. injection Hrun as <-.
  split; [exact Heq |]. split; [reflexivity |].
  unfold CoveredBytes, Size. cbn [bitmap_size_ set_bitmap_size_].
  rewrite Z.div_mul by lia. exact Heq.
Qed.

(** X9: after a [SetHeapSize(bytes)] that returns there is no slack:
    [HasAddress(a)] is true exactly for [heap_begin_ <= a < heap_begin_ +
    bytes], when that range lies in the address space. *)
Theorem SetHeapSize_then_HasAddress_is_exact bm bytes bm' a :
  sizeof_intptr_t <= 8 -> is_address (heap_begin_ bm) -> is_address bytes ->
  heap_begin_ bm + bytes <= 2 ^ kBitsPerIntPtrT -> is_address a ->
  SetHeapSize bm bytes = Ok bm' ->
  HasAddress bm' a = true <-> heap_begin_ bm <= a < heap_begin_ bm + bytes.
Proof.
  intros Hsz Hhb Hbytes Hfit Ha Hrun.
  destruct (SetHeapSize_Ok_inv bm bytes bm' Hsz Hbytes Hrun) as [_ [Hbm Hcov]].
  assert (Hb' : heap_begin_ bm' = heap_begin_ bm) by (rewrite Hbm; reflexivity).
  rewrite <- Hcov, <- Hb'.
  apply HasAddress_in_coverage; [rewrite Hb'; exact Hhb | exact Ha |].
  unfold CoverageFits. rewrite Hcov, Hb'. exact Hfit.
Qed.

(** X10: [SetHeapSize] moves the limit and the size only.  The store, its
    pointer, [heap_begin_], the name and the mem map are as before, so
    [IsValid()] is, and [Test] answers as before for every address that
    [HasAddress] accepts before and after. *)
Theorem SetHeapSize_keeps_the_bits bm bytes bm' :
  SetHeapSize bm bytes = Ok bm' ->
  mem_map_ bm' = mem_map_ bm
  /\ bitmap_begin_ bm' = bitmap_begin_ bm
  /\ heap_begin_ bm' = heap_begin_ bm
  /\ name_ bm' = name_ bm
  /\ words_ bm' = words_ bm
  /\ IsValid bm' = IsValid bm
  /\ (forall a, HasAddress bm a = true -> HasAddress bm' a = true ->
        Test bm' a = Test bm a).
Proof.
  intros Hrun. unfold SetHeapSize in Hrun.
  destruct (_ =? _) in Hrun; [| discriminate]. injection Hrun as <-.
  do 6 (split; [reflexivity |]).
  intros a Hhas Hhas'. rewrite !Test_spec, Hhas, Hhas'. reflexivity.
Qed.

(** X11: resizing a bitmap to its own [HeapSize()] never aborts and leaves
    the size of the store as it was, when the store is a whole number of
    words that cover less than the address space. *)
Theorem SetHeapSize_to_HeapSize_returns bm :
  sizeof_intptr_t <= 8 -> is_address (heap_begin_ bm) ->
  0 <= Size bm -> Size bm mod sizeof_intptr_t = 0 ->
  CoveredBytes bm < 2 ^ kBitsPerIntPtrT ->
  exists bm',
    SetHeapSize bm (HeapSize bm) = Ok bm'
    /\ bitmap_size_ bm' = bitmap_size_ bm
    /\ HeapSize bm' = HeapSize bm.
Proof.
  intros Hsz Hhb Hs Hmod Hc.
  assert (Hw : 2 ^ kBitsPerIntPtrT <= 2 ^ 64).
  { apply Z.pow_le_mono_r; [lia |]. unfold kBitsPerIntPtrT, kBitsPerByte. lia. }
  rewrite (HeapSize_CoveredBytes bm Hs ltac:(lia)).
  pose proof bytes_per_word_pos as Hm. pose proof kBitsPerIntPtrT_pos as HB.
  pose proof (Z.div_mod (Size bm) sizeof_intptr_t ltac:(lia)) as E.
  rewrite Hmod in E.
  assert (Hn : 0 <= Size bm / sizeof_intptr_t) by (apply Z.div_pos; lia).
  unfold CoveredBytes in *. set (n := Size bm / sizeof_intptr_t) in *.
  assert (Hbytes : is_address (n * kAlignment * kBitsPerIntPtrT))
    by (unfold is_address; split; [nia | lia]).
  assert (Hq : OffsetToIndex (n * kAlignment * kBitsPerIntPtrT) = n).
  { replace (n * kAlignment * kBitsPerIntPtrT)
      with (n * kAlignment * kBitsPerIntPtrT + 0) by lia.
    apply OffsetToIndex_word. lia. }
  assert (Hu : uint64_t (n * kAlignment * kBitsPerIntPtrT)
               = n * kAlignment * kBitsPerIntPtrT).
  { apply wrap_small. unfold is_address in Hbytes. lia. }
  assert (Hns : size_t (n * sizeof_intptr_t) = Size bm).
  { unfold size_t. rewrite wrap_small; [lia |].
    unfold kBitsPerIntPtrT, kBitsPerByte in *. nia. }
  unfold SetHeapSize. rewrite SetHeapSize_HeapSize by assumption.
  rewrite Hu, !Hq, Z.eqb_refl, Hns. eexists. split; [reflexivity |].
  split; [reflexivity |].
  unfold HeapSize, Size. cbn [bitmap_size_ set_bitmap_size_].
  apply IndexToOffset_small; [exact Hn | unfold Size in *; lia].
Qed.

(** X12: of two calls of [SetHeapSize] the later one decides: after a call
    that returned, a second call does what it would have done on the
    bitmap as it was. *)
Theorem SetHeapSize_again bm bytes1 bytes2 bm1 :
  SetHeapSize bm bytes1 = Ok bm1 ->
  SetHeapSize bm1 bytes2 = SetHeapSize bm bytes2.
Proof.
  intros Hrun. unfold SetHeapSize in Hrun.
  destruct (_ =? _) in Hrun; [| discriminate]. injection Hrun as <-.
  reflexivity.
Qed.

(** ** Further properties of VisitRange *)

Lemma SlotsFrom_app b n1 n2 :
  SlotsFrom b (n1 + n2)
  = SlotsFrom b n1 ++ SlotsFrom (b + Z.of_nat n1 * kAlignment) n2.
Proof.
  revert b. induction n1 as [| n1 IH]; intros b.
  - simpl. f_equal. lia.
  - cbn [Nat.add SlotsFrom app]. rewrite IH. do 3 f_equal. lia.
Qed.

(** The slots of a range cut at a slot boundary. *)
Lemma SlotCount_cut b k e :
  0 <= k -> b + k * kAlignment <= e ->
  Z.of_nat (SlotCount b (b + k * kAlignment)) = k
  /\ SlotCount b e
     = (SlotCount b (b + k * kAlignment)
        + SlotCount (b + k * kAlignment) e)%nat.
Proof.
  intros Hk Hle.
  destruct (SlotCount_spec b (b + k * kAlignment)) as [H1 C1].
  destruct (SlotCount_spec (b + k * kAlignment) e) as [H2 C2].
  destruct (SlotCount_spec b e) as [H C].
  cbv zeta in *.
  set (n1 := Z.of_nat (SlotCount b (b + k * kAlignment))) in *.
  set (n2 := Z.of_nat (SlotCount (b + k * kAlignment) e)) in *.
  set (n := Z.of_nat (SlotCount b e)) in *.
  assert (Hn1 : 0 <= n1) by (subst n1; lia).
  assert (Hn2 : 0 <= n2) by (subst n2; lia).
  assert (Hn : 0 <= n) by (subst n; lia).
  assert (E1 : n1 = k).
  { pose proof (C1 n1 Hn1) as A1. pose proof (C1 k Hk) as A2.
    assert (~ b + n1 * kAlignment < b + k * kAlignment) by lia.
    assert (~ k < n1) by lia. nia. }
  split; [exact E1 |].
  assert (E : n = k + n2).
  { assert (Hup : ~ k + n2 < n).
    { intros Hlt. apply (C (k + n2)) in Hlt; [| lia]. nia. }
    assert (Hdown : k + n2 <= n).
    { destruct (Z.eq_dec n2 0) as [Hz | Hnz].
      - pose proof (C n Hn) as A1.
        assert (~ b + n * kAlignment < e) by lia. nia.
      - assert (Hlast : b + k * kAlignment + (n2 - 1) * kAlignment < e)
          by (apply C2; lia).
        assert (k + n2 - 1 < n) by (apply C; [lia | nia]). lia. }
    lia. }
  apply Nat2Z.inj. rewrite Nat2Z.inj_add. fold n n1 n2. lia.
Qed.

(** X13: a range can be visited in two parts cut at any slot boundary
    [begin + k * kAlignment] at or below [end]: the second call continues
    where the first stopped, and together they make the calls of the one
    call on the whole range, when the cursor does not wrap. *)
Theorem VisitRange_in_two_parts {St : Type} (visitor : Z -> St -> St)
  (visit_begin k visit_end : Z) (s : St) :
  is_address visit_begin -> 0 <= k ->
  visit_begin + k * kAlignment <= visit_end ->
  (forall i, 0 <= i -> visit_begin + i * kAlignment < visit_end ->
     visit_begin + (i + 1) * kAlignment < 2 ^ kBitsPerIntPtrT) ->
  RangeSlots visit_begin visit_end
  = RangeSlots visit_begin (visit_begin + k * kAlignment)
    ++ RangeSlots (visit_begin + k * kAlignment) visit_end
  /\ (forall fuel, (SlotCount visit_begin visit_end <= fuel)%nat ->
        VisitRange visitor fuel visit_begin visit_end s
        = VisitRange visitor fuel (visit_begin + k * kAlignment) visit_end
            (fst (VisitRange visitor fuel visit_begin
                    (visit_begin + k * kAlignment) s))).
Proof.
  intros [Hb0 Hb1] Hk Hle Hnowrap.
  destruct (SlotCount_cut visit_begin k visit_end Hk Hle) as [E1 E].
  destruct (SlotCount_spec visit_begin (visit_begin + k * kAlignment))
    as [H1 C1].
  destruct (SlotCount_spec (visit_begin + k * kAlignment) visit_end)
    as [H2 C2].
  destruct (SlotCount_spec visit_begin visit_end) as [H C].
  cbv zeta in *.
  assert (Hslots : RangeSlots visit_begin visit_end
                   = RangeSlots visit_begin (visit_begin + k * kAlignment)
                     ++ RangeSlots (visit_begin + k * kAlignment) visit_end).
  { unfold RangeSlots. rewrite E, SlotsFrom_app, E1. reflexivity. }
  split; [exact Hslots |].
  intros fuel Hfuel.
  rewrite (VisitRange_SlotsFrom visitor visit_end (SlotCount visit_begin visit_end)
             fuel visit_begin s Hfuel Hb0); [| | exact H].
  2:{ intros i [Hi0 Hi1]. apply C in Hi1; [| exact Hi0].
      split; [exact Hi1 | apply Hnowrap; assumption]. }
  rewrite (VisitRange_SlotsFrom visitor (visit_begin + k * kAlignment)
             (SlotCount visit_begin (visit_begin + k * kAlignment))
             fuel visit_begin s ltac:(lia) Hb0); [| | exact H1].
  2:{ intros i [Hi0 Hi1]. apply C1 in Hi1; [| exact Hi0].
      split; [exact Hi1 | apply Hnowrap; [exact Hi0 | lia]]. }
  cbn [fst].
  rewrite (VisitRange_SlotsFrom visitor visit_end
             (SlotCount (visit_begin + k * kAlignment) visit_end)
             fuel (visit_begin + k * kAlignment) _ ltac:(lia) ltac:(nia));
    [| | exact H2].
  2:{ intros i [Hi0 Hi1]. apply C2 in Hi1; [| exact Hi0].
      split; [exact Hi1 |].
      pose proof (Hnowrap (k + i) ltac:(lia) ltac:(nia)). nia. }
  fold (RangeSlots visit_begin visit_end).
  fold (RangeSlots visit_begin (visit_begin + k * kAlignment)).
  fold (RangeSlots (visit_begin + k * kAlignment) visit_end).
  rewrite Hslots, visit_all_app. reflexivity.
Qed.

Lemma uintptr_t_mod_alignment x :
  2 ^ kBitsPerIntPtrT mod kAlignment = 0 ->
  uintptr_t x mod kAlignment = x mod kAlignment.
Proof.
  intros Hdiv. unfold uintptr_t, wrap. pose proof word_modulus_pos as Hw.
  pose proof (Z.div_mod (2 ^ kBitsPerIntPtrT) kAlignment ltac:(lia)) as Ew.
  rewrite Hdiv in Ew.
  rewrite (Z.mod_eq x (2 ^ kBitsPerIntPtrT)) by lia.
  replace (x - 2 ^ kBitsPerIntPtrT * (x / 2 ^ kBitsPerIntPtrT))
    with (x + - (x / 2 ^ kBitsPerIntPtrT) * (2 ^ kBitsPerIntPtrT / kAlignment)
              * kAlignment) by nia.
  apply Z_mod_plus_full.
Qed.

Lemma VisitRange_log_phase (visit_end phase : Z) (fuel : nat) :
  2 ^ kBitsPerIntPtrT mod kAlignment = 0 ->
  forall b log,
    b mod kAlignment = phase ->
    Forall (fun x => x mod kAlignment = phase) log ->
    Forall (fun x => x mod kAlignment = phase)
      (fst (VisitRange record_call fuel b visit_end log)).
Proof.
  intros Hdiv. induction fuel as [| fuel IH]; intros b log Hb Hlog.
  - simpl. destruct (b <? visit_end); exact Hlog.
  - simpl. destruct (b <? visit_end); [| exact Hlog].
    apply IH.
    + rewrite uintptr_t_mod_alignment by exact Hdiv.
      rewrite <- Hb. rewrite <- (Z.mul_1_l kAlignment) at 1.
      apply Z_mod_plus_full.
    + unfold record_call. apply Forall_app. split; [exact Hlog |].
      constructor; [exact Hb | constructor].
Qed.

(** X14: [VisitRange] never rounds its cursor: when the alignment divides
    the size of the address space, every address it has called the visitor
    on, after any number of iterations and across a wrap-around, is
    congruent to [begin] modulo the alignment; from an unaligned [begin]
    it visits no aligned address. *)
Theorem VisitRange_keeps_the_phase_of_begin (fuel : nat)
  (visit_begin visit_end : Z) :
  2 ^ kBitsPerIntPtrT mod kAlignment = 0 ->
  Forall (fun x => x mod kAlignment = visit_begin mod kAlignment)
    (fst (VisitRange record_call fuel visit_begin visit_end []))
  /\ (~ aligned visit_begin ->
      Forall (fun x => ~ aligned x)
        (fst (VisitRange record_call fuel visit_begin visit_end []))).
Proof.
  intros Hdiv.
  pose proof (VisitRange_log_phase visit_end (visit_begin mod kAlignment) fuel
                Hdiv visit_begin [] eq_refl ltac:(constructor)) as Hphase.
  split; [exact Hphase |].
  intros Hna. eapply Forall_impl; [| exact Hphase].
  intros x Hx Hax. apply Hna. unfold aligned in *. rewrite <- Hx. exact Hax.
Qed.

(** X15: a range that begins on an aligned address and ends in the last
    [kAlignment - 1] bytes of the address space is never finished: when the
    alignment divides the size of the address space the cursor wraps before
    it can reach [end], and the loop is still running after any number of
    iterations. *)
Theorem VisitRange_never_returns_at_the_top {St : Type}
  (visitor : Z -> St -> St) (visit_begin visit_end : Z) :
  2 ^ kBitsPerIntPtrT mod kAlignment = 0 ->
  is_address visit_begin -> aligned visit_begin ->
  2 ^ kBitsPerIntPtrT - kAlignment < visit_end ->
  forall (fuel : nat) (s : St),
    snd (VisitRange visitor fuel visit_begin visit_end s) = false.
Proof.
  intros Hdiv Hb Hal Hend fuel. revert visit_begin Hb Hal.
  assert (Htop : forall b, is_address b -> aligned b ->
                   b <= 2 ^ kBitsPerIntPtrT - kAlignment).
  { intros b [Hb0 Hb1] Hab. unfold aligned in Hab.
    pose proof (Z.div_mod b kAlignment ltac:(lia)) as Eb.
    pose proof (Z.div_mod (2 ^ kBitsPerIntPtrT) kAlignment ltac:(lia)) as Ew.
    rewrite Hab in Eb. rewrite Hdiv in Ew.
    assert (b / kAlignment < 2 ^ kBitsPerIntPtrT / kAlignment) by nia.
    nia. }
  induction fuel as [| fuel IH]; intros b Hb Hal s;
    pose proof (Htop b Hb Hal) as Hle;
    assert (Hlt : (b <? visit_end) = true) by (apply Z.ltb_lt; lia);
    simpl; rewrite Hlt; [reflexivity |].
  apply IH.
  - apply uintptr_t_range.
  - unfold aligned in *. rewrite uintptr_t_mod_alignment by exact Hdiv.
    rewrite <- (Z.mul_1_l kAlignment) at 1. rewrite Z_mod_plus_full. exact Hal.
Qed.

(** ** Further properties of Test, Set and Clear *)

Lemma update_nth_twice n x y l :
  update_nth n y (update_nth n x l) = update_nth n y l.
Proof.
  revert n. induction l as [| h t IH]; intros n; [reflexivity |].
  destruct n; simpl; [reflexivity | rewrite IH; reflexivity].
Qed.

Lemma update_nth_id n x l : nth_error l n = Some x -> update_nth n x l = l.
Proof.
  revert n. induction l as [| h t IH]; intros n Hn; [reflexivity |].
  destruct n; simpl in *.
  - injection Hn as ->. reflexivity.
  - rewrite IH by exact Hn. reflexivity.
Qed.

Lemma update_nth_swap n m x y l :
  n <> m ->
  update_nth n x (update_nth m y l) = update_nth m y (update_nth n x l).
Proof.
  revert n m. induction l as [| h t IH]; intros n m Hne; [reflexivity |].
  destruct n, m; simpl; try reflexivity; [congruence |].
  rewrite IH by congruence. reflexivity.
Qed.

Lemma store_word_twice bm i x y :
  store_word (store_word bm i x) i y = store_word bm i y.
Proof.
  unfold store_word, set_words_. cbn. rewrite update_nth_twice. reflexivity.
Qed.

Lemma store_word_id bm i w :
  nth_error (words_ bm) (Z.to_nat i) = Some w -> store_word bm i w = bm.
Proof.
  intros Hnth. unfold store_word, set_words_.
  rewrite update_nth_id by exact Hnth. destruct bm. reflexivity.
Qed.

Lemma store_word_swap bm i j x y :
  Z.to_nat i <> Z.to_nat j ->
  store_word (store_word bm i x) j y = store_word (store_word bm j y) i x.
Proof.
  intros Hne. unfold store_word, set_words_. cbn.
  rewrite update_nth_swap by congruence. reflexivity.
Qed.

Lemma word_eq_of_bits w w' :
  word_range w -> word_range w' ->
  (forall j, 0 <= j < kBitsPerIntPtrT -> Z.testbit w j = Z.testbit w' j) ->
  w = w'.
Proof.
  intros Hw Hw' Hbits. apply Z.bits_inj'. intros j Hj.
  destruct (Z_lt_le_dec j kBitsPerIntPtrT) as [Hlt | Hge].
  - apply Hbits. lia.
  - rewrite (testbit_above_word w j Hw Hge), (testbit_above_word w' j Hw' Hge).
    reflexivity.
Qed.

(** [Modify<kSetBit>] on the bitmap that a first [Modify] returned. *)
Lemma Modify_after_store kSetBit bm a i w :
  Valid bm -> HasAddress bm a = true -> word_range w ->
  0 <= i < Z.of_nat (length (words_ bm)) ->
  exists v,
    nth_error (words_ (store_word bm i w))
      (Z.to_nat (OffsetToIndex (uintptr_t (a - heap_begin_ bm)))) = Some v
    /\ word_range v
    /\ Modify kSetBit (store_word bm i w) a
       = Ok (Z.testbit v (OffsetBitIndex (uintptr_t (a - heap_begin_ bm))),
             store_word (store_word bm i w)
               (OffsetToIndex (uintptr_t (a - heap_begin_ bm)))
               (modified_word kSetBit v
                  (2 ^ OffsetBitIndex (uintptr_t (a - heap_begin_ bm))))).
Proof.
  intros V Hhas Hw Hi.
  apply (Modify_Ok kSetBit (store_word bm i w) a).
  - apply store_word_Valid; assumption.
  - exact Hhas.
Qed.

Lemma Modify_again kSetBit bm a :
  Valid bm -> HasAddress bm a = true ->
  exists old bm1,
    Modify kSetBit bm a = Ok (old, bm1)
    /\ Modify kSetBit bm1 a = Ok (kSetBit, bm1)
    /\ (old = kSetBit -> bm1 = bm)
    /\ (old = negb kSetBit -> Modify (negb kSetBit) bm1 a = Ok (kSetBit, bm)).
Proof.
  intros V Hhas.
  destruct (Modify_Ok kSetBit bm a V Hhas) as [w [Hnth [Hw Hrun]]].
  pose proof (HasAddress_index bm a V Hhas) as Hidx.
  pose proof (OffsetBitIndex_range (uintptr_t (a - heap_begin_ bm))) as Hbit.
  set (idx := OffsetToIndex (uintptr_t (a - heap_begin_ bm))) in *.
  set (bit := OffsetBitIndex (uintptr_t (a - heap_begin_ bm))) in *.
  set (w1 := modified_word kSetBit w (2 ^ bit)) in *.
  assert (Hw1 : word_range w1) by (apply modified_word_range; assumption).
  assert (Hb1 : forall j, Z.testbit w1 j = if bit =? j then kSetBit else Z.testbit w j)
    by (intros j; apply testbit_modified_word; assumption).
  assert (Hnth1 : nth_error (words_ (store_word bm idx w1)) (Z.to_nat idx)
                  = Some w1).
  { cbn [store_word set_words_ words_]. apply update_nth_same. lia. }
  assert (Hsecond : forall k,
            Modify k (store_word bm idx w1) a
            = Ok (kSetBit,
                  store_word bm idx (modified_word k w1 (2 ^ bit)))).
  { intros k.
    destruct (Modify_after_store k bm a idx w1 V Hhas Hw1 Hidx)
      as [v [Hv [_ Hrun2]]].
    fold idx bit in Hv, Hrun2. rewrite Hnth1 in Hv. injection Hv as <-.
    rewrite Hrun2, store_word_twice, Hb1, Z.eqb_refl. reflexivity. }
  exists (Z.testbit w bit), (store_word bm idx w1).
  split; [exact Hrun |]. split; [| split].
  - rewrite Hsecond. do 3 f_equal.
    apply word_eq_of_bits; [apply modified_word_range; assumption | exact Hw1 |].
    intros j Hj. rewrite testbit_modified_word by assumption.
    rewrite Hb1. destruct (bit =? j); reflexivity.
  - intros Hold. apply store_word_id. rewrite Hnth. f_equal.
    apply word_eq_of_bits; [exact Hw | exact Hw1 |].
    intros j Hj. rewrite Hb1.
    destruct (Z.eqb_spec bit j) as [<- | _]; [exact Hold | reflexivity].
  - intros Hold. rewrite Hsecond. do 2 f_equal.
    apply store_word_id. rewrite Hnth. f_equal.
    apply word_eq_of_bits; [exact Hw | apply modified_word_range; assumption |].
    intros j Hj. rewrite testbit_modified_word by assumption. rewrite Hb1.
    destruct (Z.eqb_spec bit j) as [<- | _]; [exact Hold | reflexivity].
Qed.

(** X17: a second [Set(a)] returns true and changes nothing, and a [Set(a)]
    that found the bit set changed nothing either; [Clear(a)] after a
    [Set(a)] that found the bit clear gives back the bitmap as it was.
    The same holds with [Set] and [Clear] exchanged. *)
Theorem Set_and_Clear_again_and_undone bm a :
  Valid bm -> HasAddress bm a = true ->
  (exists old bm1,
     Set_ bm a = Ok (old, bm1)
     /\ Set_ bm1 a = Ok (true, bm1)
     /\ (old = true -> bm1 = bm)
     /\ (old = false -> Clear bm1 a = Ok (true, bm)))
  /\ (exists old bm1,
        Clear bm a = Ok (old, bm1)
        /\ Clear bm1 a = Ok (false, bm1)
        /\ (old = false -> bm1 = bm)
        /\ (old = true -> Set_ bm1 a = Ok (false, bm))).
Proof.
  intros V Hhas. unfold Set_, Clear. split.
  - destruct (Modify_again true bm a V Hhas) as [old [bm1 H]].
    exists old, bm1. exact H.
  - destruct (Modify_again false bm a V Hhas) as [old [bm1 H]].
    exists old, bm1. exact H.
Qed.

(** X18: [Set] and [Clear] keep a bitmap well formed, with the range it
    covers: the bitmap they return satisfies the invariants again and
    [HasAddress] answers on it as before, for every address. *)
Theorem Modify_keeps_the_bitmap_well_formed kSetBit bm a old bm' :
  Valid bm -> Modify kSetBit bm a = Ok (old, bm') ->
  Valid bm'
  /\ (forall x, HasAddress bm' x = HasAddress bm x)
  /\ HeapBegin bm' = HeapBegin bm
  /\ HeapLimit bm' = HeapLimit bm
  /\ Size bm' = Size bm
  /\ IsValid bm' = IsValid bm.
Proof.
  intros V Hrun.
  destruct (HasAddress bm a) eqn:Hhas;
    [| unfold Modify in Hrun; rewrite Hhas in Hrun; discriminate].
  destruct (Modify_Ok kSetBit bm a V Hhas) as [w [_ [Hw Hrun']]].
  rewrite Hrun' in Hrun. injection Hrun as _ <-.
  split; [| repeat split].
  apply store_word_Valid; [exact V |].
  apply modified_word_range; [exact Hw | apply OffsetBitIndex_range].
Qed.

(** X19: two calls of [Modify] commute when they write the same value, as
    two [Set] or two [Clear] do, or when their addresses lie in different
    slots: either order returns, and leaves the same bitmap. *)
Theorem Modify_calls_commute ka kb bm a b :
  Valid bm -> HasAddress bm a = true -> HasAddress bm b = true ->
  ka = kb
  \/ uintptr_t (a - heap_begin_ bm) / kAlignment
     <> uintptr_t (b - heap_begin_ bm) / kAlignment ->
  exists oa bm1 ob bm12 ob' bm2 oa' bm21,
    Modify ka bm a = Ok (oa, bm1)
    /\ Modify kb bm1 b = Ok (ob, bm12)
    /\ Modify kb bm b = Ok (ob', bm2)
    /\ Modify ka bm2 a = Ok (oa', bm21)
    /\ bm12 = bm21.
Proof.
  intros V Ha Hb Hcase.
  destruct (Modify_Ok ka bm a V Ha) as [wa [Hna [Hwa Hra]]].
  destruct (Modify_Ok kb bm b V Hb) as [wb [Hnb [Hwb Hrb]]].
  pose proof (HasAddress_index bm a V Ha) as Hia.
  pose proof (HasAddress_index bm b V Hb) as Hib.
  pose proof (OffsetBitIndex_range (uintptr_t (a - heap_begin_ bm))) as Hja.
  pose proof (OffsetBitIndex_range (uintptr_t (b - heap_begin_ bm))) as Hjb.
  pose proof (slot_split (uintptr_t (a - heap_begin_ bm))) as Hsa.
  pose proof (slot_split (uintptr_t (b - heap_begin_ bm))) as Hsb.
  set (ia := OffsetToIndex (uintptr_t (a - heap_begin_ bm))) in *.
  set (ja := OffsetBitIndex (uintptr_t (a - heap_begin_ bm))) in *.
  set (ib := OffsetToIndex (uintptr_t (b - heap_begin_ bm))) in *.
  set (jb := OffsetBitIndex (uintptr_t (b - heap_begin_ bm))) in *.
  assert (Hwa' : word_range (modified_word ka wa (2 ^ ja)))
    by (apply modified_word_range; assumption).
  assert (Hwb' : word_range (modified_word kb wb (2 ^ jb)))
    by (apply modified_word_range; assumption).
  destruct (Modify_after_store kb bm b ia _ V Hb Hwa' Hia)
    as [vb [Hvb [Hvbr Hrab]]].
  destruct (Modify_after_store ka bm a ib _ V Ha Hwb' Hib)
    as [va [Hva [Hvar Hrba]]].
  fold ia ja ib jb in Hvb, Hrab, Hva, Hrba.
  do 8 eexists.
  split; [exact Hra |]. split; [exact Hrab |].
  split; [exact Hrb |]. split; [exact Hrba |].
  cbn [store_word set_words_ words_] in Hvb, Hva.
  destruct (Z.eq_dec ia ib) as [Heq | Hne].
  - rewrite <- Heq in *.
    rewrite update_nth_same in Hvb, Hva by lia.
    injection Hvb as <-. injection Hva as <-.
    rewrite Hna in Hnb. injection Hnb as <-.
    rewrite !store_word_twice. f_equal.
    apply word_eq_of_bits; [apply modified_word_range; assumption
                           | apply modified_word_range; assumption |].
    intros j Hj. rewrite !testbit_modified_word by assumption.
    destruct (Z.eqb_spec ja j) as [Eja | _];
      destruct (Z.eqb_spec jb j) as [Ejb | _]; try reflexivity.
    destruct Hcase as [-> | Hslot]; [reflexivity |].
    exfalso. apply Hslot. rewrite Hsa, Hsb. lia.
  - assert (Hnat : Z.to_nat ia <> Z.to_nat ib)
      by (intros Hc; apply Hne; apply Z2Nat.inj; lia).
    rewrite update_nth_other in Hvb by exact Hnat.
    rewrite update_nth_other in Hva by congruence.
    rewrite Hnb in Hvb. injection Hvb as <-.
    rewrite Hna in Hva. injection Hva as <-.
    apply store_word_swap. exact Hnat.
Qed.

(** ** Further properties of the marked-range visits *)

(** What the scan of a range that holds a slot relies on. *)
Lemma range_scan_facts bm b e :
  Valid bm -> heap_begin_ bm <= b -> b <= e ->
  e <= heap_begin_ bm + CoveredBytes bm -> is_address e ->
  SlotCeil (b - heap_begin_ bm) < SlotCeil (e - heap_begin_ bm) ->
  0 <= SlotCeil (b - heap_begin_ bm) / kBitsPerIntPtrT
  /\ SlotCeil (b - heap_begin_ bm) / kBitsPerIntPtrT
     <= (SlotCeil (e - heap_begin_ bm) - 1) / kBitsPerIntPtrT
  /\ (SlotCeil (e - heap_begin_ bm) - 1) / kBitsPerIntPtrT
     < Z.of_nat (length (words_ bm))
  /\ 0 <= SlotCeil (e - heap_begin_ bm) mod kBitsPerIntPtrT
  /\ (forall i j,
        SlotCeil (b - heap_begin_ bm) / kBitsPerIntPtrT <= i
          <= (SlotCeil (e - heap_begin_ bm) - 1) / kBitsPerIntPtrT ->
        0 <= j < kBitsPerIntPtrT ->
        Z.testbit
          (range_word bm
             (SlotCeil (b - heap_begin_ bm) / kBitsPerIntPtrT)
             (SlotCeil (b - heap_begin_ bm) mod kBitsPerIntPtrT)
             (SlotCeil (e - heap_begin_ bm) / kBitsPerIntPtrT)
             (SlotCeil (e - heap_begin_ bm) mod kBitsPerIntPtrT) i) j = true
        <-> Z.testbit (word_at bm i) j = true
            /\ SlotCeil (b - heap_begin_ bm) <= i * kBitsPerIntPtrT + j
               < SlotCeil (e - heap_begin_ bm))
  /\ (forall i j,
        SlotCeil (b - heap_begin_ bm) / kBitsPerIntPtrT <= i
          <= (SlotCeil (e - heap_begin_ bm) - 1) / kBitsPerIntPtrT ->
        In j (set_bits
                (range_word bm
                   (SlotCeil (b - heap_begin_ bm) / kBitsPerIntPtrT)
                   (SlotCeil (b - heap_begin_ bm) mod kBitsPerIntPtrT)
                   (SlotCeil (e - heap_begin_ bm) / kBitsPerIntPtrT)
                   (SlotCeil (e - heap_begin_ bm) mod kBitsPerIntPtrT) i)) ->
        heap_begin_ bm + (i * kBitsPerIntPtrT + j) * kAlignment
        < 2 ^ kBitsPerIntPtrT).
Proof.
  intros V Hb Hbe He [_ Hae] Hlt. destruct (valid_begin bm V) as [Hhb _].
  pose proof kBitsPerIntPtrT_pos as HB.
  pose proof (SlotCeil_nonneg (b - heap_begin_ bm) ltac:(lia)) as Hss0.
  set (slot_start := SlotCeil (b - heap_begin_ bm)) in *.
  set (slot_end := SlotCeil (e - heap_begin_ bm)) in *.
  assert (Hse : slot_end
                <= Z.of_nat (length (words_ bm)) * kBitsPerIntPtrT).
  { apply SlotCeil_le_iff. rewrite (valid_length bm V).
    unfold CoveredBytes, Size in He. lia. }
  pose proof (Z.mod_pos_bound slot_start kBitsPerIntPtrT HB) as Hbs.
  pose proof (Z.mod_pos_bound slot_end kBitsPerIntPtrT HB) as Hbe'.
  assert (Hedge : forall i j,
            slot_start / kBitsPerIntPtrT <= i
              <= (slot_end - 1) / kBitsPerIntPtrT ->
            0 <= j < kBitsPerIntPtrT ->
            Z.testbit
              (range_word bm (slot_start / kBitsPerIntPtrT)
                 (slot_start mod kBitsPerIntPtrT)
                 (slot_end / kBitsPerIntPtrT) (slot_end mod kBitsPerIntPtrT) i)
              j = true
            <-> Z.testbit (word_at bm i) j = true
                /\ slot_start <= i * kBitsPerIntPtrT + j < slot_end).
  { intros i j Hi Hj. rewrite range_word_testbit by lia.
    rewrite <- andb_assoc, andb_true_iff.
    rewrite (edge_masks_iff slot_start slot_end i j Hj Hi). reflexivity. }
  split; [apply Z.div_pos; lia |].
  split; [apply Z.div_le_mono; lia |].
  split; [apply Z.div_lt_upper_bound; lia |].
  split; [lia |]. split; [exact Hedge |].
  intros i j Hi Hj. apply set_bits_In in Hj. destruct Hj as [Hj Hbit].
  apply Hedge in Hbit; [| exact Hi | exact Hj]. destruct Hbit as [_ Hk].
  assert (Hlt' : (i * kBitsPerIntPtrT + j) * kAlignment < e - heap_begin_ bm).
  { destruct (Z_lt_le_dec ((i * kBitsPerIntPtrT + j) * kAlignment)
                (e - heap_begin_ bm)) as [H | H]; [exact H |].
    apply SlotCeil_le_iff in H. fold slot_end in H. lia. }
  lia.
Qed.

Lemma range_offsets bm b e :
  Valid bm -> heap_begin_ bm <= b -> b <= e -> is_address e ->
  uintptr_t (b - heap_begin_ bm) = b - heap_begin_ bm
  /\ uintptr_t (e - heap_begin_ bm) = e - heap_begin_ bm.
Proof.
  intros V Hb Hbe [_ Hae]. destruct (valid_begin bm V) as [Hhb _].
  split; apply uintptr_t_small; unfold is_address; lia.
Qed.

Lemma MarkedSlots_sorted bm b e : StronglySorted Z.lt (MarkedSlots bm b e).
Proof.
  unfold MarkedSlots. destruct (_ <=? _); [constructor |].
  apply slots_of_words_sorted.
Qed.

Lemma MarkedSlots_In bm b e x :
  Valid bm -> heap_begin_ bm <= b -> b <= e ->
  e <= heap_begin_ bm + CoveredBytes bm -> is_address e ->
  In x (MarkedSlots bm b e)
  <-> b <= x < e /\ aligned x /\ Test bm x = Ok true.
Proof.
  intros V Hb Hbe He Hae.
  rewrite (marked_in_range_iff bm b e x V Hb Hbe He Hae).
  destruct (range_offsets bm b e V Hb Hbe Hae) as [Hos Hoe].
  unfold MarkedSlots. rewrite Hos, Hoe.
  pose proof kBitsPerIntPtrT_pos as HB.
  destruct (Z.leb_spec (SlotCeil (e - heap_begin_ bm))
              (SlotCeil (b - heap_begin_ bm))) as [Hempty | Hlt].
  { split; [intros [] | intros [k [Hk _]]; lia]. }
  destruct (range_scan_facts bm b e V Hb Hbe He Hae Hlt)
    as [His [Hil [Hn [_ [Hedge _]]]]].
  rewrite slots_of_words_In. split.
  - intros [i [j [Hi [Hj [Hbit Hx]]]]].
    apply Hedge in Hbit; [| lia | exact Hj]. destruct Hbit as [Hbit Hk].
    destruct (slot_div_mod i j Hj) as [Hd Hm].
    exists (i * kBitsPerIntPtrT + j).
    split; [exact Hk |]. split; [exact Hx |]. rewrite Hd, Hm. exact Hbit.
  - intros [k [Hk [Hx Hbit]]].
    pose proof (Z.div_mod k kBitsPerIntPtrT ltac:(lia)) as Ek.
    pose proof (Z.mod_pos_bound k kBitsPerIntPtrT HB) as Hj.
    assert (Hi : SlotCeil (b - heap_begin_ bm) / kBitsPerIntPtrT
                 <= k / kBitsPerIntPtrT
                 <= (SlotCeil (e - heap_begin_ bm) - 1) / kBitsPerIntPtrT).
    { split; apply Z.div_le_mono; lia. }
    exists (k / kBitsPerIntPtrT), (k mod kBitsPerIntPtrT).
    split; [lia |]. split; [exact Hj |]. split.
    + apply Hedge; [exact Hi | exact Hj |]. split; [exact Hbit | lia].
    + rewrite Hx. f_equal. f_equal. lia.
Qed.

Lemma VisitMarkedRange_all_run {St : Type} (visitor : Z -> St -> St)
  bm b e (s : St) :
  Valid bm -> heap_begin_ bm <= b -> b <= e ->
  e <= heap_begin_ bm + CoveredBytes bm -> is_address e ->
  VisitMarkedRange visitor false bm b e s
  = Ok (visit_all visitor (MarkedSlots bm b e) s).
Proof.
  intros V Hb Hbe He Hae.
  destruct (range_offsets bm b e V Hb Hbe Hae) as [Hos Hoe].
  unfold VisitMarkedRange, MarkedSlots. rewrite Hos, Hoe.
  destruct (Z.leb_spec (SlotCeil (e - heap_begin_ bm))
              (SlotCeil (b - heap_begin_ bm))) as [Hempty | Hlt];
    [reflexivity |].
  destruct (range_scan_facts bm b e V Hb Hbe He Hae Hlt)
    as [His [Hil [Hn [Hbe0 [_ Hok]]]]].
  apply VisitWords_run; [exact V | exact Hbe0 | exact His | lia |].
  intros i j Hi Hj. apply Hok; [lia | exact Hj].
Qed.

(** X20: [VisitAllMarked] on a well-formed bitmap whose limit lies on a
    slot boundary returns after calling the visitor, in strictly ascending
    order, on exactly the aligned addresses of [HeapBegin(), HeapLimit())
    whose bit is set: a bit set in the slack above the limit is not
    visited. *)
Theorem VisitAllMarked_visits_the_heap bm :
  Valid bm -> sizeof_intptr_t <= 8 -> aligned (heap_limit_ bm) ->
  (forall (St : Type) (visitor : Z -> St -> St) (s : St),
     VisitAllMarked visitor bm s
     = Ok (visit_all visitor
             (MarkedSlots bm (heap_begin_ bm) (heap_limit_ bm)) s))
  /\ StronglySorted Z.lt (MarkedSlots bm (heap_begin_ bm) (heap_limit_ bm))
  /\ (forall x, In x (MarkedSlots bm (heap_begin_ bm) (heap_limit_ bm))
        <-> HeapBegin bm <= x < HeapLimit bm /\ aligned x
            /\ Test bm x = Ok true).
Proof.
  intros V Hsz _.
  destruct (valid_limit bm V) as [Hl0 Hl1]. destruct (valid_begin bm V) as [Hb0 _].
  pose proof (Valid_covers bm V) as Hcov.
  assert (Hw : 2 ^ kBitsPerIntPtrT <= 2 ^ 64).
  { apply Z.pow_le_mono_r; [lia |]. unfold kBitsPerIntPtrT, kBitsPerByte. lia. }
  assert (Hlim : HeapLimit bm = heap_limit_ bm).
  { unfold HeapLimit, uint64_t. apply wrap_small. lia. }
  assert (Hae : is_address (heap_limit_ bm)) by (unfold is_address; lia).
  split; [| split].
  - intros St visitor s. unfold VisitAllMarked, HeapBegin.
    rewrite Hlim, (uintptr_t_small _ Hae).
    apply VisitMarkedRange_all_run; try assumption; lia.
  - apply MarkedSlots_sorted.
  - intros x. rewrite Hlim. unfold HeapBegin.
    apply MarkedSlots_In; try assumption; lia.
Qed.

Lemma set_bits_lowest w :
  word_range w -> w <> 0 -> exists rest, set_bits w = CTZ w :: rest.
Proof.
  intros Hr Hnz. assert (Hw : 0 < w) by (unfold word_range in Hr; lia).
  destruct (CTZ_spec w Hw) as [_ [Hbit Hbelow]].
  assert (Hlow : forall j, j < 0 -> Z.testbit w j = false)
    by (intros j Hj; apply Z.testbit_neg_r; exact Hj).
  pose proof (CTZ_range w 0 Hr Hw Hlow) as Hc.
  unfold set_bits.
  replace (Z.to_nat kBitsPerIntPtrT) with (Z.to_nat (kBitsPerIntPtrT - 0))
    by (f_equal; lia).
  rewrite (bits_between_lowest w w 0 (CTZ w) Hc); [eexists; reflexivity | | exact Hbit |].
  - intros j Hj. apply Hbelow. lia.
  - reflexivity.
Qed.

Lemma VisitWord_once {St : Type} (visitor : Z -> St -> St) ptr_base w (s : St) :
  word_range w ->
  VisitWord visitor true ptr_base w s
  = Ok (match set_bits w with
        | [] => (s, false)
        | j :: _ => (visitor (uintptr_t (ptr_base + j * kAlignment)) s, true)
        end).
Proof.
  intros Hr. unfold VisitWord.
  destruct (Z.eqb_spec w 0) as [-> | Hnz].
  - unfold set_bits. rewrite bits_between_none; [reflexivity |].
    intros j _. apply Z.bits_0.
  - destruct (set_bits_lowest w Hr Hnz) as [rest ->].
    pose proof kBitsPerIntPtrT_pos as HB.
    destruct (Z.to_nat kBitsPerIntPtrT) as [| fuel] eqn:Hfuel; [lia |].
    reflexivity.
Qed.

Lemma VisitWords_once_run {St : Type} (visitor : Z -> St -> St) bm
  index_start bit_start index_end bit_end :
  Valid bm -> 0 <= bit_end ->
  forall (count : nat) (i : Z) (s : St),
    0 <= i -> i + Z.of_nat count <= Z.of_nat (length (words_ bm)) ->
    (forall i' j, i <= i' < i + Z.of_nat count ->
       In j (set_bits (range_word bm index_start bit_start index_end bit_end i')) ->
       heap_begin_ bm + (i' * kBitsPerIntPtrT + j) * kAlignment
       < 2 ^ kBitsPerIntPtrT) ->
    VisitWords visitor true bm index_start bit_start index_end bit_end count i s
    = Ok (visit_all visitor
            (firstn 1
               (slots_of_words
                  (range_word bm index_start bit_start index_end bit_end)
                  (heap_begin_ bm) count i)) s).
Proof.
  intros V Hbe. induction count as [| count IH]; intros i s Hi Hlen Hok.
  - reflexivity.
  - cbn [VisitWords slots_of_words].
    rewrite load_word_at by lia. cbn [bind].
    change (if i =? index_end
            then Z.land
                   (if i =? index_start
                    then Z.land (word_at bm i)
                           (not_word (Z.shiftl 1 bit_start - 1))
                    else word_at bm i) (Z.shiftl 1 bit_end - 1)
            else if i =? index_start
                 then Z.land (word_at bm i)
                        (not_word (Z.shiftl 1 bit_start - 1))
                 else word_at bm i)
      with (range_word bm index_start bit_start index_end bit_end i).
    rewrite VisitWord_once by (apply range_word_range; assumption).
    cbn [bind].
    destruct (set_bits (range_word bm index_start bit_start index_end bit_end i))
      as [| j rest] eqn:Hbits.
    + cbn [snd fst map app]. apply IH; [lia | lia |].
      intros i' j Hi' Hj. apply Hok; [lia | exact Hj].
    + cbn [snd fst map app firstn]. unfold visit_all. cbn [fold_left].
      do 2 f_equal. rewrite WordBase_slot. apply uintptr_t_small.
      assert (Hj : In j (set_bits
                           (range_word bm index_start bit_start index_end
                              bit_end i))) by (rewrite Hbits; left; reflexivity).
      pose proof (Hok i j ltac:(lia) Hj) as Hlt.
      apply set_bits_In in Hj. destruct (valid_begin bm V) as [Hhb _].
      pose proof kBitsPerIntPtrT_pos. unfold is_address. split; [nia | lia].
Qed.

Lemma VisitMarkedRange_once_run {St : Type} (visitor : Z -> St -> St)
  bm b e (s : St) :
  Valid bm -> heap_begin_ bm <= b -> b <= e ->
  e <= heap_begin_ bm + CoveredBytes bm -> is_address e ->
  VisitMarkedRange visitor true bm b e s
  = Ok (visit_all visitor (firstn 1 (MarkedSlots bm b e)) s).
Proof.
  intros V Hb Hbe He Hae.
  destruct (range_offsets bm b e V Hb Hbe Hae) as [Hos Hoe].
  unfold VisitMarkedRange, MarkedSlots. rewrite Hos, Hoe.
  destruct (Z.leb_spec (SlotCeil (e - heap_begin_ bm))
              (SlotCeil (b - heap_begin_ bm))) as [Hempty | Hlt];
    [reflexivity |].
  destruct (range_scan_facts bm b e V Hb Hbe He Hae Hlt)
    as [His [Hil [Hn [Hbe0 [_ Hok]]]]].
  apply VisitWords_once_run; [exact V | exact Hbe0 | exact His | lia |].
  intros i j Hi Hj. apply Hok; [lia | exact Hj].
Qed.

(** X21: in the visit-once mode [VisitMarkedRange] calls the visitor at
    most once: on the lowest aligned address of the range whose bit is
    set, and not at all when the range has none.  Stated for a range with
    both ends on slot boundaries. *)
Theorem VisitMarkedRange_once_visits_the_first {St : Type}
  (visitor : Z -> St -> St) bm b e (s : St) :
  Valid bm -> heap_begin_ bm <= b -> b <= e ->
  e <= heap_begin_ bm + CoveredBytes bm -> is_address e ->
  aligned b -> aligned e ->
  ((forall x, b <= x < e -> aligned x -> Test bm x <> Ok true) ->
   VisitMarkedRange visitor true bm b e s = Ok s)
  /\ (forall x,
        b <= x < e -> aligned x -> Test bm x = Ok true ->
        (forall y, b <= y < x -> aligned y -> Test bm y <> Ok true) ->
        VisitMarkedRange visitor true bm b e s = Ok (visitor x s)).
Proof.
  intros V Hb Hbe He Hae _ _.
  rewrite (VisitMarkedRange_once_run visitor bm b e s V Hb Hbe He Hae).
  pose proof (MarkedSlots_sorted bm b e) as Hsorted.
  pose proof (fun x => MarkedSlots_In bm b e x V Hb Hbe He Hae) as Hmem.
  destruct (MarkedSlots bm b e) as [| h t].
  - split; [reflexivity |].
    intros x Hr Hal Ht _. exfalso. apply (Hmem x). auto.
  - split.
    + intros Hnone. exfalso.
      destruct (proj1 (Hmem h) ltac:(left; reflexivity)) as [Hr [Hal Ht]].
      exact (Hnone h Hr Hal Ht).
    + intros x Hr Hal Ht Hleast.
      destruct (proj1 (Hmem h) ltac:(left; reflexivity)) as [Hrh [Halh Hth]].
      assert (Hx : In x (h :: t)) by (apply Hmem; auto).
      inversion Hsorted as [| ? ? _ Hall]; subst.
      rewrite Forall_forall in Hall.
      destruct Hx as [-> | Hin]; [reflexivity |].
      exfalso. apply (Hleast h); [| exact Halh | exact Hth].
      pose proof (Hall x Hin). lia.
Qed.

End SpaceBitmapTemplate.

(** ** The instance [ContinuousSpaceBitmap] on a 64-bit target

    [kObjectAlignment] is 8 and [sizeof(intptr_t)] is 8: a bitmap word
    covers 512 heap bytes. *)

Ltac evaluate :=
  vm_compute; repeat split; try reflexivity; try discriminate;
  try (intro; discriminate).

Lemma example_bitmap_valid : Valid 8 8 example_bitmap.
Proof.
  constructor.
  - evaluate.
  - evaluate.
  - evaluate.
  - evaluate.
  - evaluate.
  - repeat (constructor; [evaluate |]). constructor.
Defined.

Lemma example_bitmap_fits : CoverageFits 8 8 example_bitmap.
Proof. evaluate. Defined.

(** C1 fails at [heapLimit] itself when the capacity does not fill the last
    word: 4616 is the limit of the example and [HasAddress] is true there. *)
Lemma HasAddress_at_heap_limit_counterexample :
  Valid 8 8 example_bitmap
  /\ CoverageFits 8 8 example_bitmap
  /\ heap_limit_ example_bitmap <= 4616
  /\ HasAddress 8 8 example_bitmap 4616 = true.
Proof.
  split; [exact example_bitmap_valid |].
  split; [exact example_bitmap_fits |].
  evaluate.
Qed.

Lemma HasAddress_iff_in_covered_words_witness :
  (HasAddress 8 8 example_bitmap 4608 = true
   <-> heap_begin_ example_bitmap <= 4608
       < heap_begin_ example_bitmap + CoveredBytes 8 8 example_bitmap)
  /\ heap_limit_ example_bitmap
     <= heap_begin_ example_bitmap + CoveredBytes 8 8 example_bitmap
  /\ (heap_begin_ example_bitmap <= 4608 < heap_limit_ example_bitmap ->
      HasAddress 8 8 example_bitmap 4608 = true)
  /\ (4608 < heap_begin_ example_bitmap ->
      HasAddress 8 8 example_bitmap 4608 = false)
  /\ (heap_begin_ example_bitmap + CoveredBytes 8 8 example_bitmap <= 4608 ->
      HasAddress 8 8 example_bitmap 4608 = false).
Proof.
  apply (HasAddress_iff_in_covered_words 8 8).
  - lia.
  - lia.
  - exact example_bitmap_valid.
  - exact example_bitmap_fits.
  - evaluate.
Defined.

Lemma HasAddress_true_in_rounding_slack_witness :
  HasAddress 8 8 example_bitmap 5000 = true
  /\ heap_limit_ example_bitmap <= 5000
  /\ HasAddress 8 8 example_bitmap (heap_limit_ example_bitmap) = true.
Proof.
  destruct (HasAddress_true_in_rounding_slack 8 8 ltac:(lia) ltac:(lia)
              example_bitmap example_bitmap_valid)
    as [_ [Hin [_ Hlimit]]].
  - evaluate.
  - split; [| split; [evaluate | exact Hlimit]].
    apply Hin; evaluate.
Defined.

(** C6 fails in the last word of the offsets: the offset of the next word
    is [2 ^ 64], which is 0 in a [size_t]. *)
Lemma IndexToOffset_next_word_counterexample :
  IndexToOffset 8 8 64 (OffsetToIndex 8 8 18446744073709551615 + 1) = 0
  /\ ~ (18446744073709551615
        < IndexToOffset 8 8 64 (OffsetToIndex 8 8 18446744073709551615 + 1)).
Proof. evaluate. Qed.

(** On a 32-bit target with [T = uint64_t] the offset of word [2 ^ 24]
    does not overflow [T] and is 0 once converted to the [size_t] parameter
    of [OffsetToIndex]: without the bound on [size_t] the word index is not
    recovered. *)
Lemma OffsetToIndex_of_wider_offset_example :
  IndexToOffset 8 4 64 16777216 = 4294967296
  /\ size_t 4 (IndexToOffset 8 4 64 16777216) = 0
  /\ OffsetToIndex 8 4 (size_t 4 (IndexToOffset 8 4 64 16777216)) = 0.
Proof. evaluate. Qed.

Lemma IndexToOffset_OffsetToIndex_inverse_witness :
  OffsetToIndex 8 8 (size_t 8 (IndexToOffset 8 8 64 3)) = 3
  /\ IndexToOffset 8 8 64 (OffsetToIndex 8 8 1000) <= 1000
  /\ 1000 < IndexToOffset 8 8 64 (OffsetToIndex 8 8 1000 + 1).
Proof.
  destruct (IndexToOffset_OffsetToIndex_inverse 8 8 ltac:(lia) ltac:(lia) 64
              ltac:(lia)) as [Hleft Hright].
  split.
  - apply Hleft; evaluate.
  - assert (H1000 : is_address 8 1000) by evaluate.
    destruct (Hright 1000 H1000) as [Hlo Hhi].
    split; [exact Hlo | apply Hhi; evaluate].
Defined.

Lemma SetHeapSize_aborts_iff_not_whole_words_witness :
  SetHeapSize 8 8 example_bitmap 1000 = Fatal
  /\ exists bm', SetHeapSize 8 8 example_bitmap 1024 = Ok bm'
       /\ HeapSize 8 8 bm' = 1024
       /\ HeapLimit bm' = HeapBegin bm' + 1024.
Proof.
  assert (Hsz : 8 <= 8) by lia.
  assert (Hhb : is_address 8 (heap_begin_ example_bitmap)) by evaluate.
  assert (H1000 : is_address 8 1000) by evaluate.
  assert (H1024 : is_address 8 1024) by evaluate.
  split.
  - apply (SetHeapSize_aborts_iff_not_whole_words 8 8 ltac:(lia) ltac:(lia)
             example_bitmap 1000 Hsz Hhb H1000).
    evaluate.
  - destruct (SetHeapSize_aborts_iff_not_whole_words 8 8 ltac:(lia) ltac:(lia)
                example_bitmap 1024 Hsz Hhb H1024) as [_ [_ Hok]].
    destruct (Hok ltac:(reflexivity)) as [bm' [Hrun [Hsize [_ [_ Hlimit]]]]].
    exists bm'. split; [exact Hrun |]. split; [exact Hsize |].
    apply Hlimit. evaluate.
Defined.

(** C8 fails for a range that ends in the last [kAlignment] bytes of the
    address space: the cursor wraps, and after two iterations the visitor
    has been called on address 0 and the loop has not been left. *)
Lemma VisitRange_wraps_counterexample :
  VisitRange 8 8 record_call 2 18446744073709551608 18446744073709551615 []
  = ([18446744073709551608; 0], false).
Proof. vm_compute. reflexivity. Qed.

Lemma VisitRange_visits_every_slot_witness :
  VisitRange 8 8 record_call 3 104 128 [] = ([104; 112; 120], true)
  /\ (In 112 (RangeSlots 8 104 128) <-> 104 <= 112 < 128 /\ aligned 8 112).
Proof.
  destruct (VisitRange_visits_every_slot 8 8 ltac:(lia) record_call
              104 128 []) as [Hrun [_ [_ [Haligned _]]]].
  - evaluate.
  - intros k Hk Hlt. change (2 ^ kBitsPerIntPtrT 8) with 18446744073709551616. lia.
  - split.
    + rewrite (Hrun 3%nat); [reflexivity | vm_compute; lia].
    + apply Haligned. reflexivity.
Defined.

Lemma Set_Clear_then_Test_witness :
  HasAddress 8 8 example_bitmap 4104 = true
  /\ (exists old bm',
        Set_ 8 8 example_bitmap 4104 = Ok (old, bm')
        /\ Test 8 8 bm' 4104 = Ok true
        /\ SameButBitOf 8 8 4104 example_bitmap bm')
  /\ (exists old bm',
        Clear 8 8 example_bitmap 4104 = Ok (old, bm')
        /\ Test 8 8 bm' 4104 = Ok false
        /\ SameButBitOf 8 8 4104 example_bitmap bm').
Proof.
  apply (Set_Clear_then_Test 8 8 ltac:(lia) ltac:(lia) example_bitmap 4104
           example_bitmap_valid).
  - evaluate.
  - evaluate.
Defined.

Lemma Set_returns_previous_bit_witness :
  exists old bm',
    Set_ 8 8 example_bitmap 4104 = Ok (old, bm')
    /\ Test 8 8 example_bitmap 4104 = Ok old
    /\ (old = false -> exists bm'', Set_ 8 8 bm' 4104 = Ok (true, bm'')).
Proof.
  apply (Set_returns_previous_bit 8 8 ltac:(lia) ltac:(lia) example_bitmap 4104
           example_bitmap_valid).
  - evaluate.
  - evaluate.
Defined.


Lemma VisitMarkedRange_visits_marked_slots_witness :
  VisitMarkedRange 8 8 record_call false example_bitmap 4096 4616 []
  = Ok [4096; 4112; 4608]
  /\ StronglySorted Z.lt (MarkedSlots 8 8 example_bitmap 4096 4616).
Proof.
  destruct (VisitMarkedRange_visits_marked_slots 8 8 ltac:(lia) ltac:(lia)
              example_bitmap 4096 4616 example_bitmap_valid)
    as [Hrun [Hsorted _]].
  - evaluate.
  - lia.
  - evaluate.
  - evaluate.
  - split; [| exact Hsorted]. rewrite Hrun. vm_compute. reflexivity.
Defined.



(** ** The further properties on the instance *)

Lemma OffsetToMask_is_one_bit_witness :
  0 <= OffsetBitIndex 8 8 1000 < kBitsPerIntPtrT 8
  /\ OffsetToMask 8 8 1000 = 2 ^ OffsetBitIndex 8 8 1000
  /\ 0 < OffsetToMask 8 8 1000 < 2 ^ kBitsPerIntPtrT 8
  /\ (forall j, 0 <= j ->
        Z.testbit (OffsetToMask 8 8 1000) j = (OffsetBitIndex 8 8 1000 =? j)).
Proof. exact (OffsetToMask_is_one_bit 8 8 ltac:(lia) 1000). Defined.

Lemma index_and_bit_identify_the_slot_witness :
  (OffsetToIndex 8 8 1000 = OffsetToIndex 8 8 1003
   /\ OffsetBitIndex 8 8 1000 = OffsetBitIndex 8 8 1003
   <-> 1000 / 8 = 1003 / 8)
  /\ (1000 / 8 = 1003 / 8 -> OffsetToMask 8 8 1000 = OffsetToMask 8 8 1003).
Proof. exact (index_and_bit_identify_the_slot 8 8 ltac:(lia) 1000 1003). Defined.

Lemma word_and_bit_round_trip_witness :
  OffsetToIndex 8 8 (size_t 8 (IndexToOffset 8 8 64 3 + 5 * 8 + 2)) = 3
  /\ OffsetBitIndex 8 8 (uintptr_t 8 (IndexToOffset 8 8 64 3 + 5 * 8 + 2)) = 5.
Proof.
  apply (word_and_bit_round_trip 8 8 ltac:(lia) ltac:(lia) 64 3 5 2).
  - lia.
  - evaluate.
  - evaluate.
  - lia.
  - evaluate.
Defined.

Lemma IndexToOffset_plus_bit_is_slot_base_witness :
  IndexToOffset 8 8 64 (OffsetToIndex 8 8 1003) + OffsetBitIndex 8 8 1003 * 8
  = 1003 - 1003 mod 8.
Proof.
  apply (IndexToOffset_plus_bit_is_slot_base 8 8 ltac:(lia) ltac:(lia) 64 1003).
  - evaluate.
  - evaluate.
Defined.

Lemma OffsetToIndex_eq_iff_in_window_witness :
  OffsetToIndex 8 8 1003 = 1
  <-> IndexToOffset 8 8 64 1 <= 1003 < IndexToOffset 8 8 64 (1 + 1).
Proof.
  apply (OffsetToIndex_eq_iff_in_window 8 8 ltac:(lia) ltac:(lia) 64 1003 1).
  - lia.
  - lia.
  - evaluate.
Defined.

Lemma HasAddress_false_without_words_witness :
  0 <= bitmap_size_ (set_bitmap_size_ example_bitmap 7) < 8
  /\ HasAddress 8 8 (set_bitmap_size_ example_bitmap 7) 4096 = false
  /\ HasAddress 8 8 SpaceBitmap_default 4096 = false.
Proof.
  destruct (HasAddress_false_without_words 8 8 ltac:(lia) ltac:(lia))
    as [Hsmall Hdefault].
  assert (Hsize : 0 <= bitmap_size_ (set_bitmap_size_ example_bitmap 7) < 8)
    by evaluate.
  split; [exact Hsize|]. split.
  - exact (Hsmall (set_bitmap_size_ example_bitmap 7) 4096 Hsize).
  - exact (Hdefault 4096).
Defined.

Lemma HasAddress_by_slot_and_without_gap_witness :
  ((4616 - heap_begin_ example_bitmap) / 8
   = (4620 - heap_begin_ example_bitmap) / 8 ->
   HasAddress 8 8 example_bitmap 4616 = HasAddress 8 8 example_bitmap 4620)
  /\ (4616 <= 4620 -> HasAddress 8 8 example_bitmap 4620 = true ->
      HasAddress 8 8 example_bitmap 4616 = true).
Proof.
  apply (HasAddress_by_slot_and_without_gap 8 8 ltac:(lia) ltac:(lia)
           example_bitmap 4620 4616).
  - evaluate.
  - evaluate.
  - evaluate.
  - evaluate.
  - evaluate.
Defined.

Lemma HasAddress_iff_below_HeapSize_witness :
  HeapSize 8 8 example_bitmap mod (8 * kBitsPerIntPtrT 8) = 0
  /\ (HasAddress 8 8 example_bitmap 4616 = true
      <-> 4616 - heap_begin_ example_bitmap < HeapSize 8 8 example_bitmap).
Proof.
  apply (HasAddress_iff_below_HeapSize 8 8 ltac:(lia) ltac:(lia)
           example_bitmap 4616).
  - evaluate.
  - evaluate.
  - evaluate.
  - evaluate.
  - evaluate.
Defined.

Lemma SetHeapSize_then_HasAddress_is_exact_witness :
  HasAddress 8 8 (set_bitmap_size_ (set_heap_limit_ example_bitmap 5120) 16)
    5000 = true
  <-> heap_begin_ example_bitmap <= 5000 < heap_begin_ example_bitmap + 1024.
Proof.
  apply (SetHeapSize_then_HasAddress_is_exact 8 8 ltac:(lia) ltac:(lia)
           example_bitmap 1024).
  - lia.
  - evaluate.
  - evaluate.
  - evaluate.
  - evaluate.
  - evaluate.
Defined.

Lemma SetHeapSize_keeps_the_bits_witness :
  words_ (set_bitmap_size_ (set_heap_limit_ example_bitmap 4608) 8)
  = words_ example_bitmap
  /\ IsValid (set_bitmap_size_ (set_heap_limit_ example_bitmap 4608) 8)
     = IsValid example_bitmap
  /\ Test 8 8 (set_bitmap_size_ (set_heap_limit_ example_bitmap 4608) 8) 4112
     = Test 8 8 example_bitmap 4112.
Proof.
  destruct (SetHeapSize_keeps_the_bits 8 8 ltac:(lia) ltac:(lia)
              example_bitmap 512
              (set_bitmap_size_ (set_heap_limit_ example_bitmap 4608) 8))
    as [_ [_ [_ [_ [Hwords [Hvalid Htest]]]]]].
  - evaluate.
  - split; [exact Hwords |]. split; [exact Hvalid |].
    apply Htest; evaluate.
Defined.

Lemma SetHeapSize_to_HeapSize_returns_witness :
  exists bm',
    SetHeapSize 8 8 example_bitmap (HeapSize 8 8 example_bitmap) = Ok bm'
    /\ bitmap_size_ bm' = bitmap_size_ example_bitmap
    /\ HeapSize 8 8 bm' = HeapSize 8 8 example_bitmap.
Proof.
  apply (SetHeapSize_to_HeapSize_returns 8 8 ltac:(lia) ltac:(lia)
           example_bitmap).
  - lia.
  - evaluate.
  - evaluate.
  - evaluate.
  - evaluate.
Defined.

Lemma SetHeapSize_again_witness :
  SetHeapSize 8 8 (set_bitmap_size_ (set_heap_limit_ example_bitmap 5120) 16)
    512
  = SetHeapSize 8 8 example_bitmap 512.
Proof.
  apply (SetHeapSize_again 8 8 example_bitmap 1024 512). evaluate.
Defined.

Lemma VisitRange_in_two_parts_witness :
  RangeSlots 8 100 120 = RangeSlots 8 100 (100 + 1 * 8)
                         ++ RangeSlots 8 (100 + 1 * 8) 120
  /\ VisitRange 8 8 record_call 3 100 120 []
     = VisitRange 8 8 record_call 3 (100 + 1 * 8) 120
         (fst (VisitRange 8 8 record_call 3 100 (100 + 1 * 8) [])).
Proof.
  destruct (VisitRange_in_two_parts 8 8 ltac:(lia) record_call 100 1 120 [])
    as [Hslots Hrun].
  - evaluate.
  - lia.
  - lia.
  - intros i Hi Hlt.
    change (2 ^ kBitsPerIntPtrT 8) with 18446744073709551616. lia.
  - split; [exact Hslots |]. apply Hrun. vm_compute. lia.
Defined.

Lemma VisitRange_keeps_the_phase_of_begin_witness :
  Forall (fun x => x mod 8 = 101 mod 8)
    (fst (VisitRange 8 8 record_call 5 101 120 []))
  /\ (~ aligned 8 101 ->
      Forall (fun x => ~ aligned 8 x)
        (fst (VisitRange 8 8 record_call 5 101 120 []))).
Proof.
  apply (VisitRange_keeps_the_phase_of_begin 8 8 ltac:(lia) ltac:(lia) 5%nat
           101 120).
  evaluate.
Defined.

Lemma VisitRange_never_returns_at_the_top_witness :
  snd (VisitRange 8 8 record_call 1000 18446744073709543424
         18446744073709551615 nil) = false.
Proof.
  assert (Hdiv : 2 ^ kBitsPerIntPtrT 8 mod 8 = 0) by evaluate.
  assert (Hb : is_address 8 18446744073709543424) by evaluate.
  assert (Hal : aligned 8 18446744073709543424) by evaluate.
  assert (Hend : 2 ^ kBitsPerIntPtrT 8 - 8 < 18446744073709551615)
    by evaluate.
  exact (VisitRange_never_returns_at_the_top 8 8 ltac:(lia) ltac:(lia)
           record_call 18446744073709543424 18446744073709551615
           Hdiv Hb Hal Hend 1000%nat nil).
Defined.

Lemma Set_and_Clear_again_and_undone_witness :
  (exists old bm1,
     Set_ 8 8 example_bitmap 4104 = Ok (old, bm1)
     /\ Set_ 8 8 bm1 4104 = Ok (true, bm1)
     /\ (old = true -> bm1 = example_bitmap)
     /\ (old = false -> Clear 8 8 bm1 4104 = Ok (true, example_bitmap)))
  /\ (exists old bm1,
        Clear 8 8 example_bitmap 4104 = Ok (old, bm1)
        /\ Clear 8 8 bm1 4104 = Ok (false, bm1)
        /\ (old = false -> bm1 = example_bitmap)
        /\ (old = true -> Set_ 8 8 bm1 4104 = Ok (false, example_bitmap))).
Proof.
  apply (Set_and_Clear_again_and_undone 8 8 ltac:(lia) ltac:(lia)
           example_bitmap 4104 example_bitmap_valid).
  evaluate.
Defined.

Lemma Modify_keeps_the_bitmap_well_formed_witness :
  Valid 8 8 (set_words_ example_bitmap [7; 3])
  /\ (forall x, HasAddress 8 8 (set_words_ example_bitmap [7; 3]) x
                = HasAddress 8 8 example_bitmap x)
  /\ HeapBegin (set_words_ example_bitmap [7; 3]) = HeapBegin example_bitmap
  /\ HeapLimit (set_words_ example_bitmap [7; 3]) = HeapLimit example_bitmap
  /\ Size (set_words_ example_bitmap [7; 3]) = Size example_bitmap
  /\ IsValid (set_words_ example_bitmap [7; 3]) = IsValid example_bitmap.
Proof.
  apply (Modify_keeps_the_bitmap_well_formed 8 8 ltac:(lia) ltac:(lia)
           true example_bitmap 4104 false).
  - exact example_bitmap_valid.
  - evaluate.
Defined.

Lemma Modify_calls_commute_witness :
  exists oa bm1 ob bm12 ob' bm2 oa' bm21,
    Modify 8 8 true example_bitmap 4104 = Ok (oa, bm1)
    /\ Modify 8 8 false bm1 4112 = Ok (ob, bm12)
    /\ Modify 8 8 false example_bitmap 4112 = Ok (ob', bm2)
    /\ Modify 8 8 true bm2 4104 = Ok (oa', bm21)
    /\ bm12 = bm21.
Proof.
  apply (Modify_calls_commute 8 8 ltac:(lia) ltac:(lia) true false
           example_bitmap 4104 4112 example_bitmap_valid).
  - evaluate.
  - evaluate.
  - right. evaluate.
Defined.

Lemma VisitAllMarked_visits_the_heap_witness :
  VisitAllMarked 8 8 record_call example_bitmap [] = Ok [4096; 4112; 4608].
Proof.
  destruct (VisitAllMarked_visits_the_heap 8 8 ltac:(lia) ltac:(lia)
              example_bitmap example_bitmap_valid) as [Hrun _].
  - lia.
  - evaluate.
  - rewrite Hrun. vm_compute. reflexivity.
Defined.

Lemma VisitMarkedRange_once_visits_the_first_witness :
  VisitMarkedRange 8 8 record_call true example_bitmap 4096 4616 []
  = Ok [4096].
Proof.
  destruct (VisitMarkedRange_once_visits_the_first 8 8 ltac:(lia) ltac:(lia)
              record_call example_bitmap 4096 4616 [] example_bitmap_valid)
    as [_ Hfirst].
  - evaluate.
  - lia.
  - evaluate.
  - evaluate.
  - evaluate.
  - evaluate.
  - apply (Hfirst 4096).
    + lia.
    + evaluate.
    + evaluate.
    + intros y Hy. lia.
Defined.
